(** * zoom: the query executor ([zoom/database.py]) and the group closure
      resolver ([zoom/users.py], [get_groups]).

    The development embeds the two Python modules as Rocq functions and
    proves or refutes the statements of the specification about them.

    Conventions of the embedding:
    - A Python call either returns or raises.  [outcome] has a third
      constructor, [Unmodelled], which the embedding of the builtin
      [str % args] operator returns on conversion specifiers that the
      embedding does not cover (everything but [%s], [%(key)s] and [%%]).
    - Mutable objects ([Database], DB-API cursors) are passed explicitly:
      a function that mutates [self] returns the new [self]; cursors live
      in a heap indexed by references, because a [Result] keeps a reference
      to the cursor it was made from.
    - The DB-API driver is not part of the repository.  A driver call is a
      function from the state of its own cursor to either an error or a new
      state.  What a statement does to the rows that the other cursors of
      the connection will yield is the driver's business and is not
      modelled; no statement below is about another cursor than the one
      of the call. *)

From Stdlib Require Import QArith Ascii String.
From Equations Require Import Equations.
From stdpp Require Import base option list strings gmap.

Set Warnings "-register-all,-clear-no-such-hyp".

Local Open Scope string_scope.
Local Open Scope Z_scope.

(** ** Python values that cross the executor's interface *)

Inductive pyvalue : Type :=
| PNone
| PInt (z : Z)
| PStr (s : string)
| PObject (repr : string)            (* date, Decimal, float, ...: opaque scalars *)
| PList (items : list pyvalue)
| PTuple (items : list pyvalue)
| PDict (entries : list (string * pyvalue)).  (* in insertion order, keys distinct *)

(** [hasattr(obj, 'items')] *)
Definition has_items (obj : pyvalue) : bool :=
  match obj with PDict _ => true | _ => false end.

(** Python truth value of an object. *)
Definition truthy (obj : pyvalue) : bool :=
  match obj with
  | PNone => false
  | PInt z => negb (z =? 0)
  | PStr s => negb (String.eqb s "")
  | PObject _ => true
  | PList xs | PTuple xs => negb (Nat.eqb (length xs) 0)
  | PDict kvs => negb (Nat.eqb (length kvs) 0)
  end.

(** [len(obj)], for the objects that have one. *)
Definition py_len (obj : pyvalue) : nat :=
  match obj with
  | PList xs | PTuple xs => length xs
  | PDict kvs => length kvs
  | PStr s => String.length s
  | _ => 0%nat
  end.

(** ** Exceptions and outcomes *)

(** An exception raised by the driver: its class and [str(error)]. *)
Record driver_error : Type := DriverError {
  err_class : string;
  err_text : string
}.

(** The three values substituted into [ERROR_TPL], in the template's order:
    [statement: {!r}], [parameters: {}], [message: {}]. *)
Record error_payload : Type := ErrorPayload {
  ep_statement : string;
  ep_parameters : list pyvalue;
  ep_message : string
}.

Inductive exception : Type :=
| TypeError (msg : string)
| KeyError (key : string)
| ValueError (msg : string)
| BackendException (e : driver_error)     (* a driver exception, as raised *)
| DatabaseException (payload : error_payload)
| UnkownDatabaseException.

Inductive outcome (A : Type) : Type :=
| Return (a : A)
| Raise (e : exception)
| Unmodelled.
Arguments Return {A} a.
Arguments Raise {A} e.
Arguments Unmodelled {A}.

#[export] Instance outcome_bind : MBind outcome := fun A B k m =>
  match m with
  | Return a => k a
  | Raise e => Raise e
  | Unmodelled => Unmodelled
  end.

#[export] Instance outcome_ret : MRet outcome := fun A a => Return a.

(** ** The builtin [format % args] on [str]

    Only the part of printf-style formatting that [translate] relies on:
    the arguments are always strings (the markers), and the conversions
    covered are [%s], [%(key)s] and [%%].  The scanner follows CPython's:
    one pass over the format, a mapping key is read up to its matching
    parenthesis and looked up at once, and left-over positional arguments
    are an error. *)

Inductive fmt_args : Type :=
| FmtTuple (items : list string)
| FmtDict (entries : list (string * string)).

Fixpoint dict_get {V} (entries : list (string * V)) (key : string) : option V :=
  match entries with
  | [] => None
  | (k, v) :: rest => if String.eqb k key then Some v else dict_get rest key
  end.

Inductive scan_state : Type :=
| Literal                               (* outside a specifier *)
| Specifier                             (* just after [%] *)
| InKey (depth : nat) (key : string)    (* inside [%(...], [depth] open parens *)
| Conversion (arg : string).            (* after [%(key)], the value looked up *)

Definition char_pct : ascii := "%"%char.
Definition char_s : ascii := "s"%char.
Definition char_open : ascii := "("%char.
Definition char_close : ascii := ")"%char.

Definition snoc_char (s : string) (c : ascii) : string := s +:+ String c "".

Fixpoint format_from (st : scan_state) (fmt : string) (args : fmt_args)
    (argidx : nat) : outcome string :=
  match fmt with
  | EmptyString =>
      match st with
      | Literal =>
          match args with
          | FmtTuple items =>
              if (argidx <? length items)%nat
              then Raise (TypeError "not all arguments converted during string formatting")
              else Return ""
          | FmtDict _ => Return ""
          end
      | InKey _ _ => Raise (ValueError "incomplete format key")
      | _ => Raise (ValueError "incomplete format")
      end
  | String c rest =>
      match st with
      | Literal =>
          if Ascii.eqb c char_pct then format_from Specifier rest args argidx
          else out ← format_from Literal rest args argidx; Return (String c out)
      | Specifier =>
          if Ascii.eqb c char_open then
            match args with
            | FmtDict _ => format_from (InKey 1 "") rest args argidx
            | FmtTuple _ => Raise (TypeError "format requires a mapping")
            end
          else if Ascii.eqb c char_pct then
            out ← format_from Literal rest args argidx; Return (String c out)
          else if Ascii.eqb c char_s then
            match args with
            | FmtTuple items =>
                match items !! argidx with
                | Some arg =>
                    out ← format_from Literal rest args (S argidx);
                    Return (arg +:+ out)
                | None => Raise (TypeError "not enough arguments for format string")
                end
            | FmtDict _ => Unmodelled      (* str() of the whole mapping *)
            end
          else Unmodelled                  (* flags, width, other conversions *)
      | InKey depth key =>
          if Ascii.eqb c char_close then
            match depth with
            | 1%nat =>
                match args with
                | FmtDict entries =>
                    match dict_get entries key with
                    | Some arg => format_from (Conversion arg) rest args argidx
                    | None => Raise (KeyError key)
                    end
                | FmtTuple _ => Raise (TypeError "format requires a mapping")
                end
            | _ => format_from (InKey (pred depth) (snoc_char key c)) rest args argidx
            end
          else if Ascii.eqb c char_open then
            format_from (InKey (S depth) (snoc_char key c)) rest args argidx
          else format_from (InKey depth (snoc_char key c)) rest args argidx
      | Conversion arg =>
          if Ascii.eqb c char_s then
            out ← format_from Literal rest args argidx; Return (arg +:+ out)
          else if Ascii.eqb c char_pct then
            out ← format_from Literal rest args argidx; Return (String c out)
          else Unmodelled
      end
  end.

(** [fmt % args] *)
Definition py_format (fmt : string) (args : fmt_args) : outcome string :=
  format_from Literal fmt args 0.

(** The exceptions of the formatting operator. *)
Definition is_format_error (e : exception) : bool :=
  match e with
  | TypeError _ | KeyError _ | ValueError _ => true
  | _ => false
  end.

(** ** [Database.translate] *)

Inductive paramstyle_t : Type := qmark | pyformat.

(** [issequenceform]: a sequence type that is not a string. *)
Definition issequenceform (obj : pyvalue) : bool :=
  match obj with
  | PStr _ => false
  | PList _ | PTuple _ => true
  | _ => false
  end.

(** [{key: ':%s' % key for key in args[0]}] *)
Definition named_placeholders (entries : list (string * pyvalue))
    : list (string * string) :=
  map (fun kv => (fst kv, ":" +:+ fst kv)) entries.

(** [['?'] * n] *)
Definition qmarks (n : nat) : list string := replicate n "?".

Definition translate (paramstyle : paramstyle_t) (command : string)
    (args : list pyvalue) : outcome (string * pyvalue) :=
  match paramstyle with
  | qmark =>
      match args with
      | arg0 :: _ =>
          if Nat.eqb (length args) 1 && has_items arg0 && truthy arg0 then
            match arg0 with
            | PDict entries =>
                cmd ← py_format command (FmtDict (named_placeholders entries));
                Return (cmd, arg0)
            | _ => Unmodelled              (* only a PDict has [items] *)
            end
          else if (1 <=? length args)%nat && issequenceform arg0 then
            cmd ← py_format command (FmtTuple (qmarks (py_len arg0)));
            Return (cmd, PTuple args)
          else
            cmd ← py_format command (FmtTuple (qmarks (length args)));
            Return (cmd, PTuple args)
      | [] =>
          cmd ← py_format command (FmtTuple (qmarks (length args)));
          Return (cmd, PTuple args)
      end
  | pyformat =>
      let params :=
        match args with
        | arg0 :: _ =>
            if Nat.eqb (length args) 1 && has_items arg0 && truthy arg0
            then arg0
            else PTuple args
        | [] => PTuple args
        end in
      Return (command, params)
  end.

(** ** Statements in the canonical placeholder syntax

    The specification speaks of a statement's placeholders.  A statement
    in the canonical syntax is a sequence of pieces; [statement_text] is
    the text a caller writes for it and [native_text] the text the qmark
    backend is meant to receive. *)

Inductive piece : Type :=
| Text (c : ascii)        (* any character but [%] *)
| Percent                 (* [%%], a literal percent sign *)
| Positional              (* [%s] *)
| Named (key : string).   (* [%(key)s] *)

Fixpoint paren_free (s : string) : bool :=
  match s with
  | EmptyString => true
  | String c rest =>
      negb (Ascii.eqb c char_open) && negb (Ascii.eqb c char_close) && paren_free rest
  end.

Definition wf_piece (p : piece) : bool :=
  match p with
  | Text c => negb (Ascii.eqb c char_pct)
  | Named key => paren_free key
  | _ => true
  end.

Definition is_positional (p : piece) : bool :=
  match p with Positional => true | _ => false end.

Definition is_named (p : piece) : bool :=
  match p with Named _ => true | _ => false end.

Fixpoint statement_text (ps : list piece) : string :=
  match ps with
  | [] => ""
  | Text c :: rest => String c (statement_text rest)
  | Percent :: rest => "%%" +:+ statement_text rest
  | Positional :: rest => "%s" +:+ statement_text rest
  | Named key :: rest => "%(" +:+ key +:+ ")s" +:+ statement_text rest
  end.

Fixpoint native_text (ps : list piece) : string :=
  match ps with
  | [] => ""
  | Text c :: rest => String c (native_text rest)
  | Percent :: rest => "%" +:+ native_text rest
  | Positional :: rest => "?" +:+ native_text rest
  | Named key :: rest => ":" +:+ key +:+ native_text rest
  end.

(** A run of plain text as pieces. *)
Fixpoint text_pieces (s : string) : list piece :=
  match s with
  | EmptyString => []
  | String c rest => Text c :: text_pieces rest
  end.

(** The number of ordinal markers [translate] supplies on a qmark backend:
    one per element of the first argument when that is a sequence that is
    not a string, one per argument otherwise. *)
Definition marker_count (args : list pyvalue) : nat :=
  match args with
  | arg0 :: _ => if issequenceform arg0 then py_len arg0 else length args
  | [] => 0%nat
  end.

(** Exactly one argument, a mapping that is not empty. *)
Definition single_mapping (args : list pyvalue) : bool :=
  match args with
  | [PDict (_ :: _)] => true
  | _ => false
  end.

Definition mapping_has_key (args : list pyvalue) (p : piece) : bool :=
  match p, args with
  | Named key, [PDict entries] => bool_decide (is_Some (dict_get entries key))
  | Named _, _ => false
  | _, _ => true
  end.

Fixpoint count_positional (ps : list piece) : nat :=
  match ps with
  | [] => 0%nat
  | p :: rest =>
      if is_positional p then S (count_positional rest) else count_positional rest
  end.

(** The statement is in the canonical syntax and its placeholders are the
    ones the arguments call for: named ones, each with a key of the
    mapping, when the arguments are a single non-empty mapping; otherwise
    as many [%s] as there are markers. *)
Definition placeholders_match (ps : list piece) (args : list pyvalue) : bool :=
  forallb wf_piece ps &&
  if single_mapping args
  then forallb (fun p => negb (is_positional p) && mapping_has_key args p) ps
  else forallb (fun p => negb (is_named p)) ps
       && Nat.eqb (count_positional ps) (marker_count args).

(** The parameter set handed to the driver. *)
Definition native_params (args : list pyvalue) : pyvalue :=
  match args with
  | [PDict (entry :: entries)] => PDict (entry :: entries)
  | _ => PTuple args
  end.

(** ** Cursors, connections and the [Database] object *)

Definition row : Type := list pyvalue.

(** What the executor reads from a DB-API cursor.  [cur_arraysize] is what
    [fetchmany(0)] falls back to: [None] for every row that is left, as
    sqlite3 does, [Some n] for the cursor's [arraysize], as pymysql does. *)
Record cursor_state : Type := mkCursor {
  cur_description : option (list string);  (* [None], or one entry per column *)
  cur_rowcount : Z;
  cur_lastrowid : option Z;                (* [getattr(cursor, 'lastrowid', None)] *)
  cur_pending : list row;                  (* rows not fetched yet *)
  cur_arraysize : option nat
}.

(** A cursor of a driver that takes size 0 for "all the rows". *)
Definition Cursor (description : option (list string)) (count : Z)
    (id : option Z) (pending : list row) : cursor_state :=
  mkCursor description count id pending None.

Abbreviation cursor_ref := nat (only parsing).

(** [cursor.execute] or [cursor.executemany], bound to a cursor. *)
Definition driver_method : Type :=
  string -> pyvalue -> cursor_state -> driver_error + cursor_state.

(** A driver connection, as the methods the executor calls on it. *)
Record connection_t : Type := Connection {
  conn_autocommit : Z -> option driver_error;
  conn_cursor : driver_error + cursor_state;  (* [connection.cursor()] *)
  conn_execute : driver_method;
  conn_executemany : driver_method
}.

Definition factory_t : Type :=
  list pyvalue -> list (string * pyvalue) -> driver_error + connection_t.

(** The values substituted into the trace template
    ['  SQL ({:5.1f} ms): {!r} - {!r}']. *)
Record trace_line : Type := TraceLine {
  tl_elapsed_ms : Q;
  tl_command : string;
  tl_args : list pyvalue
}.

Record Database : Type := mkDatabase {
  paramstyle : paramstyle_t;
  connection : option connection_t;        (* [__connection] *)
  factory : factory_t;                     (* [__factory] *)
  init_args : list pyvalue;                (* [__args] *)
  init_keywords : list (string * pyvalue); (* [__keywords] *)
  debug : bool;
  log : list trace_line;
  rowcount : option Z;
  lastrowid : option Z
}.

(** [Database.__init__] *)
Definition Database_init (style : paramstyle_t) (f : factory_t)
    (args : list pyvalue) (keywords : list (string * pyvalue)) : Database :=
  {| paramstyle := style; connection := None; factory := f;
     init_args := args; init_keywords := keywords;
     debug := false; log := []; rowcount := None; lastrowid := None |}.

Definition set_connection (self : Database) (c : connection_t) : Database :=
  {| paramstyle := paramstyle self; connection := Some c; factory := factory self;
     init_args := init_args self; init_keywords := init_keywords self;
     debug := debug self; log := log self;
     rowcount := rowcount self; lastrowid := lastrowid self |}.

Definition set_rowcount (self : Database) (n : Z) : Database :=
  {| paramstyle := paramstyle self; connection := connection self;
     factory := factory self;
     init_args := init_args self; init_keywords := init_keywords self;
     debug := debug self; log := log self;
     rowcount := Some n; lastrowid := lastrowid self |}.

Definition set_lastrowid (self : Database) (id : option Z) : Database :=
  {| paramstyle := paramstyle self; connection := connection self;
     factory := factory self;
     init_args := init_args self; init_keywords := init_keywords self;
     debug := debug self; log := log self;
     rowcount := rowcount self; lastrowid := id |}.

Definition log_append (self : Database) (line : trace_line) : Database :=
  {| paramstyle := paramstyle self; connection := connection self;
     factory := factory self;
     init_args := init_args self; init_keywords := init_keywords self;
     debug := debug self; log := (log self ++ [line])%list;
     rowcount := rowcount self; lastrowid := lastrowid self |}.

Definition set_debug (self : Database) (flag : bool) : Database :=
  {| paramstyle := paramstyle self; connection := connection self;
     factory := factory self;
     init_args := init_args self; init_keywords := init_keywords self;
     debug := flag; log := log self;
     rowcount := rowcount self; lastrowid := lastrowid self |}.

(** [Database.__getattr__]: the connection is made on first use. *)
Definition get_connection (self : Database) : Database * outcome connection_t :=
  match connection self with
  | Some c => (self, Return c)
  | None =>
      match factory self (init_args self) (init_keywords self) with
      | inl error => (self, Raise (BackendException error))
      | inr c => (set_connection self c, Return c)
      end
  end.

(** ** [Result] *)

Definition ARRAY_SIZE : nat := 1000.

Record Result : Type := mkResult {
  cursor : cursor_ref;
  array_size : nat
}.

(** The number of rows that [fetchmany(size)] asks for. *)
Definition batch_size (size : nat) (cs : cursor_state) : nat :=
  match size with
  | O =>
      match cur_arraysize cs with
      | None => length (cur_pending cs)
      | Some n => n
      end
  | S _ => size
  end.

(** [cursor.fetchmany(size)]: the next rows, at most [size] of them when
    [size] is positive. *)
Definition fetchmany (size : nat) (cs : cursor_state) : list row * cursor_state :=
  let n := batch_size size cs in
  (take n (cur_pending cs),
   {| cur_description := cur_description cs; cur_rowcount := cur_rowcount cs;
      cur_lastrowid := cur_lastrowid cs;
      cur_pending := drop n (cur_pending cs);
      cur_arraysize := cur_arraysize cs |}).

Definition inspect {A} (a : A) : {b : A | a = b} := exist _ a eq_refl.

(** The loop of [Result.__iter__], run until the generator is exhausted:
    the rows it yields and the cursor it leaves behind. *)
Equations? fetch_loop (size : nat) (cs : cursor_state)
    : list row * cursor_state by wf (length (cur_pending cs)) lt :=
  fetch_loop size cs with inspect (fetchmany size cs) := {
    | exist _ ([], cs') _ => ([], cs')
    | exist _ (r :: results, cs') Hfetch =>
        let rest := fetch_loop size cs' in
        (((r :: results) ++ fst rest)%list, snd rest) }.
Proof.
  unfold fetchmany in Hfetch. injection Hfetch as Htake <-. simpl.
  destruct (batch_size size cs) as [|n]; [done|].
  destruct (cur_pending cs) as [|r0 pending]; [done|].
  rewrite length_drop. simpl. lia.
Qed.

(** The cursors of a connection, by reference. *)
Abbreviation cursors := (gmap cursor_ref cursor_state) (only parsing).

(** [list(result)]: one full iteration.  [None] only when the reference
    does not name a cursor, which no Python program can observe. *)
Definition Result_iter (self : Result) (heap : cursors)
    : option (list row * cursors) :=
  match heap !! cursor self with
  | Some cs =>
      let run := fetch_loop (array_size self) cs in
      Some (fst run, <[cursor self := snd run]> heap)
  | None => None
  end.

(** ** [Database._execute], [execute], [execute_many] *)

Inductive exec_result : Type :=
| ResultValue (r : Result)         (* [Result(cursor)] *)
| LastRowId (id : option Z).       (* [self.lastrowid] *)

(** Truth value of [cursor.description]. *)
Definition has_description (cs : cursor_state) : bool :=
  match cur_description cs with
  | Some (_ :: _) => true
  | _ => false
  end.

(** The [finally] clause: the trace line is appended when [self.debug]. *)
Definition trace (self : Database) (start stop : Q) (command : string)
    (args : list pyvalue) : Database :=
  if debug self
  then log_append self (TraceLine ((stop - start) * 1000)%Q command args)
  else self.

(** [start] and [stop] are the two readings of [timeit.default_timer()].
    The function returns the executor and the cursors as the call leaves
    them, and what the call returns or raises. *)
Definition _execute (self : Database) (heap : cursors) (cursor : cursor_ref)
    (method : driver_method) (command : string) (args : list pyvalue)
    (start stop : Q) : Database * cursors * outcome exec_result :=
  match translate (paramstyle self) command args with
  | Raise e => (self, heap, Raise e)
  | Unmodelled => (self, heap, Unmodelled)
  | Return (command, params) =>
      match heap !! cursor with
      | None => (self, heap, Unmodelled)
      | Some cs =>
          match method command params cs with
          | inl error =>
              (trace self start stop command args, heap,
               Raise (DatabaseException
                        (ErrorPayload command args (err_text error))))
          | inr cs =>
              let heap := <[cursor := cs]> heap in
              let self := set_rowcount self (cur_rowcount cs) in
              let self := trace self start stop command args in
              if has_description cs
              then (self, heap, Return (ResultValue (mkResult cursor ARRAY_SIZE)))
              else
                let self := set_lastrowid self (cur_lastrowid cs) in
                (self, heap, Return (LastRowId (lastrowid self)))
          end
      end
  end.

(** [self.cursor()]: connect if needed, then allocate a cursor. *)
Definition new_cursor (self : Database) (heap : cursors)
    : Database * cursors * outcome (cursor_ref * connection_t) :=
  match get_connection self with
  | (self, Return c) =>
      match conn_cursor c with
      | inl error => (self, heap, Raise (BackendException error))
      | inr cs =>
          let ref := fresh (dom heap) in
          (self, <[ref := cs]> heap, Return (ref, c))
      end
  | (self, Raise e) => (self, heap, Raise e)
  | (self, Unmodelled) => (self, heap, Unmodelled)
  end.

Definition execute (self : Database) (heap : cursors) (command : string)
    (args : list pyvalue) (start stop : Q)
    : Database * cursors * outcome exec_result :=
  match new_cursor self heap with
  | (self, heap, Return (cursor, c)) =>
      _execute self heap cursor (conn_execute c) command args start stop
  | (self, heap, Raise e) => (self, heap, Raise e)
  | (self, heap, Unmodelled) => (self, heap, Unmodelled)
  end.

Definition execute_many (self : Database) (heap : cursors) (command : string)
    (sequence : list pyvalue) (start stop : Q)
    : Database * cursors * outcome exec_result :=
  match new_cursor self heap with
  | (self, heap, Return (cursor, c)) =>
      _execute self heap cursor (conn_executemany c) command sequence start stop
  | (self, heap, Raise e) => (self, heap, Raise e)
  | (self, heap, Unmodelled) => (self, heap, Unmodelled)
  end.

(** What a call leaves behind and what it gives back. *)
Definition self_after {A} (r : Database * cursors * A) : Database := r.1.1.
Definition heap_after {A} (r : Database * cursors * A) : cursors := r.1.2.
Definition outcome_of {A} (r : Database * cursors * A) : A := r.2.

(** ** [database]: choosing the backend *)

(** [dict(kwargs, key=value)] *)
Fixpoint dict_set {V} (entries : list (string * V)) (key : string) (value : V)
    : list (string * V) :=
  match entries with
  | [] => [(key, value)]
  | (k, v) :: rest =>
      if String.eqb k key then (k, value) :: rest
      else (k, v) :: dict_set rest key value
  end.

(** A call with [**keywords] of a function whose named parameters [params]
    are all given by position: the first keyword, in the order of the
    mapping, that names one of them is refused. *)
Fixpoint keyword_clash {V} (params : list string) (keywords : list (string * V))
    : option string :=
  match keywords with
  | [] => None
  | (k, _) :: rest =>
      if bool_decide (k ∈ params) then Some k else keyword_clash params rest
  end.

(** The [TypeError] of such a call, with the message of the interpreters
    that run this module (CPython 3.3 to 3.9: [translate] reads
    [collections.Sequence]). *)
Definition multiple_values (callee param : string) : exception :=
  TypeError (callee +:+ "() got multiple values for argument '" +:+ param +:+ "'").

(** The call [Database.__init__(self, factory, *args, **keywords)] that the
    two subclasses make: [Database_init] is the body, run once the
    arguments are bound to [self], [factory], [*args] and [**keywords]. *)
Definition Database_call (style : paramstyle_t) (f : factory_t)
    (args : list pyvalue) (keywords : list (string * pyvalue))
    : outcome Database :=
  match keyword_clash ["self"; "factory"] keywords with
  | Some param => Raise (multiple_values "__init__" param)
  | None => Return (Database_init style f args keywords)
  end.

(** The constructor call of [Sqlite3Database]: the binding of the keywords
    by [__init__(self, *args, **kwargs)], then the body of [__init__];
    [parse_decltypes] is [sqlite3.PARSE_DECLTYPES]. *)
Definition Sqlite3Database (sqlite3_connect : factory_t) (parse_decltypes : Z)
    (args : list pyvalue) (kwargs : list (string * pyvalue)) : outcome Database :=
  match keyword_clash ["self"] kwargs with
  | Some param => Raise (multiple_values "__init__" param)
  | None =>
      let keyword_args := dict_set kwargs "detect_types" (PInt parse_decltypes) in
      Database_call qmark sqlite3_connect args keyword_args
  end.

(** The constructor call of [MySQLDatabase], in the same way. *)
Definition MySQLDatabase (pymysql_connect : factory_t)
    (args : list pyvalue) (kwargs : list (string * pyvalue)) : outcome Database :=
  match keyword_clash ["self"] kwargs with
  | Some param => Raise (multiple_values "__init__" param)
  | None =>
      let keyword_args := dict_set kwargs "charset" (PStr "utf8") in
      Database_call pyformat pymysql_connect args keyword_args
  end.

(** No keyword of a constructor call is named after a parameter that the
    constructors give by position. *)
Definition keywords_bind (kwargs : list (string * pyvalue)) : bool :=
  match keyword_clash ["self"; "factory"] kwargs with
  | None => true
  | Some _ => false
  end.

(** No keyword of a call of [database] is named after [engine], given by
    position, or after a parameter that the constructors give by position. *)
Definition call_binds (kwargs : list (string * pyvalue)) : bool :=
  match keyword_clash ["engine"] kwargs with
  | None => keywords_bind kwargs
  | Some _ => false
  end.

(** The call [database(engine, ...)] with its positional arguments and
    keywords: the binding of the keywords, then the body.  The two drivers'
    [connect] functions are parameters of [database]. *)
Definition database (sqlite3_connect pymysql_connect : factory_t)
    (parse_decltypes : Z) (engine : string)
    (args : list pyvalue) (kwargs : list (string * pyvalue)) : outcome Database :=
  match keyword_clash ["engine"] kwargs with
  | Some param => Raise (multiple_values "database" param)
  | None =>
      if String.eqb engine "sqlite3" then
        db ← Sqlite3Database sqlite3_connect parse_decltypes args kwargs;
        Return db
      else if String.eqb engine "mysql" then
        db ← MySQLDatabase pymysql_connect args kwargs;
        (* db.autocommit(1) *)
        match get_connection db with
        | (db, Return c) =>
            match conn_autocommit c 1 with
            | Some error => Raise (BackendException error)
            | None => Return db
            end
        | (_, Raise e) => Raise e
        | (_, Unmodelled) => Unmodelled
        end
      else Raise UnkownDatabaseException
  end.

(** ** [get_groups] and its local [get_memberships] *)

(** The characters that [str.strip()] removes, among the code points
    below 256 that a [string] holds. *)
Definition is_space (c : ascii) : bool :=
  let n := nat_of_ascii c in
  ((9 <=? n) && (n <=? 13) || (28 <=? n) && (n <=? 32)
   || Nat.eqb n 133 || Nat.eqb n 160)%nat.

Fixpoint lstrip (s : string) : string :=
  match s with
  | EmptyString => ""
  | String c rest => if is_space c then lstrip rest else s
  end.

Fixpoint rstrip (s : string) : string :=
  match s with
  | EmptyString => ""
  | String c rest =>
      match rstrip rest with
      | EmptyString => if is_space c then "" else String c ""
      | kept => String c kept
      end
  end.

(** [name.strip()] *)
Definition strip (s : string) : string := rstrip (lstrip s).

(** [x in result] on a list of ids *)
Definition id_in (x : Z) (l : list Z) : bool := bool_decide (x ∈ l).

(** One turn of the [for grp, sgrp in memberships] loop, given what the
    recursive call returns. *)
Definition visit (expand : Z -> list Z) (group : Z) (result : list Z)
    (edge : Z * Z) : list Z :=
  let (grp, sgrp) := edge in
  if (group =? sgrp) && negb (id_in grp result)
  then (result ++ expand grp)%list
  else result.

(** The recursion is on [10 - depth]: the guard [depth < 10] is what makes
    every call return. *)
Equations? get_memberships (group : Z) (memberships : list (Z * Z))
    (depth : nat) : list Z by wf (10 - depth)%nat lt :=
  get_memberships group memberships depth with lt_dec depth 10 := {
    | left Hdepth =>
        fold_left
          (visit (fun grp => get_memberships grp memberships (S depth)) group)
          memberships [group]
    | right _ => [group] }.
Proof. lia. Qed.

(** [get_groups]; the three arguments are the rows that its three queries
    yield: the [group_id] column of the user's rows of [members], the
    [(group_id, subgroup_id)] rows of [subgroups], the [(id, name)] rows of
    [groups]. *)
Definition closure_ids (my_groups : list Z) (subgroups : list (Z * Z)) : list Z :=
  let memberships :=
    fold_left (fun memberships group =>
                 (memberships ++ get_memberships group subgroups 0)%list)
              my_groups [] in
  (my_groups ++ memberships)%list.

Definition get_groups (my_groups : list Z) (subgroups : list (Z * Z))
    (group_rows : list (Z * string)) : list string :=
  let groups := closure_ids my_groups subgroups in
  fold_left (fun named_groups rec =>
               let groupid := fst rec in
               let name := strip (snd rec) in
               if id_in groupid groups
               then (named_groups ++ [name])%list
               else named_groups)
            group_rows [].

(** *** The calls made during an expansion

    [get_memberships_traced] is [get_memberships] with a record of every
    recursive call: the depth the callee runs at, its group, and the
    caller's [result] at the moment of the call. *)

Record call_event : Type := Call {
  call_depth : nat;
  call_group : Z;
  call_result : list Z
}.

Definition visit_traced (expand : Z -> list Z * list call_event) (depth : nat)
    (group : Z) (state : list Z * list call_event) (edge : Z * Z)
    : list Z * list call_event :=
  let (grp, sgrp) := edge in
  let result := state.1 in
  if (group =? sgrp) && negb (id_in grp result)
  then
    let sub := expand grp in
    ((result ++ sub.1)%list, (state.2 ++ Call (S depth) grp result :: sub.2)%list)
  else state.

Equations? get_memberships_traced (group : Z) (memberships : list (Z * Z))
    (depth : nat) : list Z * list call_event by wf (10 - depth)%nat lt :=
  get_memberships_traced group memberships depth with lt_dec depth 10 := {
    | left Hdepth =>
        fold_left
          (visit_traced
             (fun grp => get_memberships_traced grp memberships (S depth))
             depth group)
          memberships ([group], [])
    | right _ => ([group], []) }.
Proof. lia. Qed.

(** The groups that an expansion enters, in the order of the calls: the
    group it starts from and the group of every recursive call. *)
Definition entered_groups (group : Z) (memberships : list (Z * Z)) : list Z :=
  group :: (call_group <$> (get_memberships_traced group memberships 0).2).

(** A bound on the length of an expansion with [levels] levels of
    recursion left over [edges] edges. *)
Fixpoint closure_bound (edges levels : nat) : nat :=
  match levels with
  | O => 1
  | S levels => 1 + edges * closure_bound edges levels
  end.

(** The names as the specification orders them: by first discovery of
    their ids in the closure. *)
Fixpoint first_occurrences (seen ids : list Z) : list Z :=
  match ids with
  | [] => []
  | id :: rest =>
      if id_in id seen then first_occurrences seen rest
      else id :: first_occurrences (id :: seen) rest
  end.

Definition names_in_discovery_order (my_groups : list Z)
    (subgroups : list (Z * Z)) (group_rows : list (Z * string)) : list string :=
  omap (fun id =>
          (fun rec => strip (snd rec))
            <$> List.find (fun rec => bool_decide (fst rec = id)) group_rows)
       (first_occurrences [] (closure_ids my_groups subgroups)).

(** ** Sample drivers, used to run the model on concrete calls *)

Definition fresh_cursor : cursor_state := Cursor None (-1) None [].

(** A driver that refuses every statement. *)
Definition refuse : driver_method :=
  fun _ _ _ => inl (DriverError "OperationalError" "no such table: person").

(** A driver whose statements all produce the same two rows. *)
Definition select_rows : driver_method :=
  fun _ _ _ =>
    inr (Cursor (Some ["id"; "name"]) (-1) None
           [[PInt 1; PStr "Joe"]; [PInt 2; PStr "Ann"]]).

(** A driver whose statements all insert the row with id 4. *)
Definition insert_row : driver_method :=
  fun _ _ _ => inr (Cursor None 1 (Some 4) []).

Definition sample_connection (method : driver_method) : connection_t :=
  Connection (fun _ => None) (inr fresh_cursor) method method.

Definition connect_to (c : connection_t) : factory_t := fun _ _ => inr c.

Definition connect_refused : factory_t :=
  fun _ _ => inl (DriverError "OperationalError" "cannot connect to server").

(** The executor that [Sqlite3Database()] makes, with [debug] switched on,
    as the tests set it up. *)
Definition sample_db (method : driver_method) : Database :=
  set_debug
    (Database_init qmark (connect_to (sample_connection method)) []
       [("detect_types", PInt 1)])
    true.

(** The executor that [MySQLDatabase(host='database')] makes, with [debug]
    switched on, for a server that refuses the connection. *)
Definition unreachable_db : Database :=
  set_debug
    (Database_init pyformat connect_refused []
       [("host", PStr "database"); ("charset", PStr "utf8")])
    true.

(** ** The rest of [Result] *)

(** [Result.__len__]: [count > 0 and count or 0]. *)
Definition Result_len (self : Result) (heap : cursors) : option Z :=
  cs ← heap !! cursor self;
  let count := cur_rowcount cs in
  Some (if (0 <? count) && negb (count =? 0) then count else 0).


(** ** The rest of [Database] *)

(** [Database.use]: the object made is a plain [Database], whose
    [paramstyle] is the class attribute ['pyformat']. *)
Definition use (self : Database) (name : string) : Database :=
  let args := init_args self in
  let keywords := dict_set (init_keywords self) "db" (PStr name) in
  Database_init pyformat (factory self) args keywords.

Definition newline : string := String (ascii_of_nat 10) "".

(** [sep.join(lines)] *)
Fixpoint join (sep : string) (lines : list string) : string :=
  match lines with
  | [] => ""
  | [line] => line
  | line :: rest => line +:+ sep +:+ join sep rest
  end.

(** [Database.report].  In the source the log holds the trace lines as
    text; [render] is the formatting of one line, which [_execute] applies
    when it appends it. *)
Definition report (render : trace_line -> string) (self : Database) : string :=
  match log self with
  | [] => ""
  | lines =>
      "  Database Queries" +:+ newline +:+ " --------------------" +:+ newline
      +:+ join newline (map render lines) +:+ newline
  end.

(** A sequence of calls on one executor, the caller going on after an
    exception. *)
Record db_call : Type := DbCall {
  dc_many : bool;                (* [execute_many] rather than [execute] *)
  dc_command : string;
  dc_args : list pyvalue;
  dc_start : Q;
  dc_stop : Q
}.

Definition do_call (self : Database) (heap : cursors) (c : db_call)
    : Database * cursors * outcome exec_result :=
  if dc_many c
  then execute_many self heap (dc_command c) (dc_args c) (dc_start c) (dc_stop c)
  else execute self heap (dc_command c) (dc_args c) (dc_start c) (dc_stop c).

Fixpoint run_calls (self : Database) (heap : cursors) (calls : list db_call)
    : Database * cursors :=
  match calls with
  | [] => (self, heap)
  | c :: rest =>
      let r := do_call self heap c in
      run_calls (self_after r) (heap_after r) rest
  end.

(** The fields of [self] that a call may only read, and the connection
    once it is made. *)
Definition same_configuration (self self' : Database) : Prop :=
  paramstyle self' = paramstyle self
  ∧ debug self' = debug self
  ∧ factory self' = factory self
  ∧ init_args self' = init_args self
  ∧ init_keywords self' = init_keywords self
  ∧ (∀ conn, connection self = Some conn → connection self' = Some conn).

(** The first named placeholder of a statement whose key the mapping does
    not have. *)
Fixpoint first_missing_key (entries : list (string * pyvalue)) (ps : list piece)
    : option string :=
  match ps with
  | [] => None
  | Named key :: rest =>
      match dict_get entries key with
      | Some _ => first_missing_key entries rest
      | None => Some key
      end
  | _ :: rest => first_missing_key entries rest
  end.

(** ** [User]: the callers of [get_groups] and the permission checks *)

(** The attributes of a user record that the methods below read. *)
Record User : Type := mkUser {
  username : string;
  password : string;
  status : string
}.

(** [User.is_active] *)
Definition is_active (self : User) : bool := String.eqb (status self) "A".

(** [User.deactivate], [User.activate] *)
Definition deactivate (self : User) : User :=
  {| username := username self; password := password self; status := "I" |}.

Definition activate (self : User) : User :=
  {| username := username self; password := password self; status := "A" |}.

(** [User.authenticate]; [validate_password] is [zoom.auth]'s, which returns
    the match and a hash.  [None] is Python's [None]. *)
Definition authenticate (validate_password : string -> string -> bool * string)
    (self : User) (pass : string) : option bool :=
  if is_active self
  then let (matched, phash) := validate_password pass (password self) in
       Some matched
  else None.

(** [User.allows] *)
Definition allows (self user : User) (action : string) : bool :=
  negb (String.eqb action "delete") || negb (String.eqb (username self) "admin").

(** An object with an [allows(user, action)] method, and its truth value. *)
Record thing_t : Type := Thing {
  thing_truthy : bool;
  thing_allows : User -> string -> bool
}.

(** [User.can]: [bool(thing and thing.allows(self, action))] *)
Definition can (self : User) (action : string) (thing : thing_t) : bool :=
  if thing_truthy thing then thing_allows thing self action else false.

Inductive auth_error : Type :=
| UnauthorizedException (msg : string).

(** [User.authorize] *)
Definition authorize (self : User) (action : string) (thing : thing_t)
    : auth_error + unit :=
  if negb (thing_allows thing self action)
  then inl (UnauthorizedException "Unauthorized")
  else inr tt.

(** A user record as the object of an action. *)
Definition user_thing (truth : bool) (target : User) : thing_t :=
  Thing truth (allows target).

(** [g.startswith(prefix)] and [g[n:]] *)
Definition startswith (g prefix : string) : bool := String.prefix prefix g.

Fixpoint slice_from (n : nat) (g : string) : string :=
  match n, g with
  | O, _ => g
  | S n, String _ rest => slice_from n rest
  | S _, EmptyString => ""
  end.

(** What the three queries of [get_groups] yield on the user's store. *)
Record group_queries : Type := GroupQueries {
  q_my_groups : list Z;
  q_subgroups : list (Z * Z);
  q_group_rows : list (Z * string)
}.

(** [User.get_groups]: no store, no groups. *)
Definition User_get_groups (store : option group_queries) : list string :=
  match store with
  | Some q => get_groups (q_my_groups q) (q_subgroups q) (q_group_rows q)
  | None => []
  end.

(** [User.groups] and [User.apps] *)
Definition groups (store : option group_queries) : list string :=
  List.filter (fun g => negb (startswith g "a_")) (User_get_groups store).

Definition apps (store : option group_queries) : list string :=
  map (slice_from 2)
      (List.filter (fun g => startswith g "a_") (User_get_groups store)).

(** [User.is_member] *)
Definition is_member (store : option group_queries) (group : string) : bool :=
  bool_decide (group ∈ groups store).

(** [child] is a subgroup of [parent] in the edge rows. *)
Definition subgroup_of (memberships : list (Z * Z)) (child parent : Z) : Prop :=
  (parent, child) ∈ memberships.

(** * Properties *)

(** ** Placeholder translation *)

Module Translate.

Example translate_sequence :
  translate qmark "values (%s, %s)" [PTuple [PInt 1; PInt 2]; PTuple [PInt 3; PInt 4]]
  = Return ("values (?, ?)", PTuple [PTuple [PInt 1; PInt 2]; PTuple [PInt 3; PInt 4]]).
Proof. reflexivity. Qed.

Example translate_pyformat :
  translate pyformat "select * from t where id=%s" [PInt 5]
  = Return ("select * from t where id=%s", PTuple [PInt 5]).
Proof. reflexivity. Qed.

Lemma append_cons c s t : String c s +:+ t = String c (s +:+ t).
Proof. reflexivity. Qed.

Lemma append_nil_l t : "" +:+ t = t.
Proof. reflexivity. Qed.

(** Push a literal prefix through [+:+], then let the scanner step. *)
Ltac scan_step :=
  rewrite ?append_cons, ?append_nil_l; cbn [format_from];
  simpl Ascii.eqb; cbv iota.

Lemma append_assoc s t u : (s +:+ t) +:+ u = s +:+ (t +:+ u).
Proof.
  induction s as [|c s IH]; [reflexivity|].
  rewrite !append_cons. by rewrite IH.
Qed.

Lemma snoc_char_append acc c key :
  snoc_char acc c +:+ key = acc +:+ String c key.
Proof. unfold snoc_char. by rewrite append_assoc. Qed.

(** Reading a key without parentheses up to the closing one. *)
Lemma scan_key entries key :
  paren_free key = true →
  ∀ acc rest idx,
    format_from (InKey 1 acc) (key +:+ String char_close rest) (FmtDict entries) idx
    = match dict_get entries (acc +:+ key) with
      | Some arg => format_from (Conversion arg) rest (FmtDict entries) idx
      | None => Raise (KeyError (acc +:+ key))
      end.
Proof.
  induction key as [|c key IH]; intros Hfree acc rest idx.
  - assert (acc +:+ "" = acc) as ->.
    { clear. induction acc as [|a acc IH]; [done|]. by rewrite append_cons, IH. }
    reflexivity.
  - simpl in Hfree.
    apply andb_prop in Hfree as [Hc Hfree].
    apply andb_prop in Hc as [Hopen Hclose].
    apply negb_true_iff in Hopen, Hclose.
    rewrite append_cons. cbn [format_from]. rewrite Hclose, Hopen.
    rewrite IH by done. by rewrite snoc_char_append.
Qed.

Lemma named_placeholders_get entries key :
  dict_get (named_placeholders entries) key
  = match dict_get entries key with
    | Some _ => Some (":" +:+ key)
    | None => None
    end.
Proof.
  induction entries as [|[k v] entries IH]; [done|].
  simpl. destruct (String.eqb_spec k key) as [->|]; [done|]. apply IH.
Qed.

Lemma format_named entries ps idx :
  forallb wf_piece ps = true →
  forallb (fun p => negb (is_positional p) && mapping_has_key [PDict entries] p) ps
    = true →
  format_from Literal (statement_text ps) (FmtDict (named_placeholders entries)) idx
  = Return (native_text ps).
Proof.
  induction ps as [|p ps IH]; intros Hwf Hps; [done|].
  simpl in Hwf, Hps.
  apply andb_prop in Hwf as [Hp Hwf]. apply andb_prop in Hps as [Hm Hps].
  apply andb_prop in Hm as [Hpos Hkey].
  specialize (IH Hwf Hps).
  destruct p as [c| | |key]; cbn [statement_text native_text].
  - simpl in Hp. apply negb_true_iff in Hp.
    cbn [format_from]. rewrite Hp, IH. done.
  - scan_step. rewrite IH. done.
  - done.
  - simpl in Hp, Hkey. apply bool_decide_eq_true in Hkey as [v Hv].
    scan_step. rewrite scan_key by done.
    rewrite append_nil_l, named_placeholders_get, Hv.
    scan_step. rewrite IH. reflexivity.
Qed.

Lemma qmarks_lookup n idx :
  (idx < n)%nat → qmarks n !! idx = Some "?".
Proof. intros. unfold qmarks. by apply lookup_replicate_2. Qed.

Lemma format_positional n ps :
  forallb wf_piece ps = true →
  forallb (fun p => negb (is_named p)) ps = true →
  ∀ idx, (idx + count_positional ps = n)%nat →
  format_from Literal (statement_text ps) (FmtTuple (qmarks n)) idx
  = Return (native_text ps).
Proof.
  induction ps as [|p ps IH]; intros Hwf Hps idx Hcount.
  - simpl in *. unfold qmarks. rewrite length_replicate.
    destruct (Nat.ltb_spec idx n); [lia|done].
  - simpl in Hwf, Hps, Hcount.
    apply andb_prop in Hwf as [Hp Hwf]. apply andb_prop in Hps as [Hnamed Hps].
    specialize (IH Hwf Hps).
    destruct p as [c| | |key]; cbn [statement_text native_text].
    + simpl in Hp, Hcount. apply negb_true_iff in Hp.
      cbn [format_from]. rewrite Hp, IH; done.
    + simpl in Hcount. scan_step. rewrite IH; done.
    + simpl in Hcount. scan_step.
      rewrite qmarks_lookup by lia. rewrite IH by lia. done.
    + done.
Qed.

Lemma not_single_mapping arg0 rest :
  single_mapping (arg0 :: rest) = false →
  Nat.eqb (length (arg0 :: rest)) 1 && has_items arg0 && truthy arg0 = false.
Proof.
  destruct rest as [|arg1 rest]; [|done].
  destruct arg0 as [| | | | | |[|entry entries]]; done.
Qed.

(** C1, as the code has it.  On a qmark backend, for a statement in the
    canonical syntax whose placeholders match the arguments: when the
    arguments are a single mapping that is not empty, every [%(key)s]
    becomes [:key] and the mapping itself is the parameter set; in every
    other case (an empty mapping included) every [%s] becomes [?], one per
    argument, or one per element of the first argument when that is a
    sequence other than a string, and the argument tuple is the parameter
    set. *)
Theorem translate_qmark_contract (ps : list piece) (args : list pyvalue) :
  placeholders_match ps args = true →
  translate qmark (statement_text ps) args
  = Return (native_text ps, native_params args).
Proof.
  unfold placeholders_match. intros [Hwf Hps]%andb_prop.
  destruct (single_mapping args) eqn:Hsingle.
  - destruct args as [|[| | | | | |[|entry entries]] [|arg1 rest]]; try done.
    unfold translate, py_format. simpl negb. cbn [length Nat.eqb has_items andb].
    simpl truthy. cbv iota.
    rewrite format_named by done. done.
  - apply andb_prop in Hps as [Hnamed Hcount]. apply Nat.eqb_eq in Hcount.
    destruct args as [|arg0 rest].
    + unfold translate, py_format. simpl in Hcount.
      rewrite (format_positional 0) by done. done.
    + unfold translate, py_format.
      rewrite not_single_mapping by done.
      assert (native_params (arg0 :: rest) = PTuple (arg0 :: rest)) as ->.
      { destruct arg0 as [| | | | | |[|entry entries]], rest; done. }
      unfold marker_count in Hcount. simpl andb.
      destruct (issequenceform arg0);
        rewrite (format_positional _ ps) by done; done.
Qed.

Lemma translate_qmark_contract_witness :
  translate qmark "select * from t where id=%(id)s" [PDict [("id", PInt 5)]]
  = Return ("select * from t where id=:id", PDict [("id", PInt 5)])
  ∧ translate qmark "values (%s, %s)" [PStr "Joe"; PInt 32]
    = Return ("values (?, ?)", PTuple [PStr "Joe"; PInt 32])
  ∧ translate qmark "values (%s, %s)" [PTuple [PStr "Joe"; PInt 32]]
    = Return ("values (?, ?)", PTuple [PTuple [PStr "Joe"; PInt 32]]).
Proof.
  split; [|split].
  - exact (translate_qmark_contract
             (text_pieces "select * from t where id=" ++ [Named "id"])
             [PDict [("id", PInt 5)]] eq_refl).
  - exact (translate_qmark_contract
             (text_pieces "values (" ++ [Positional] ++ text_pieces ", "
                ++ [Positional] ++ text_pieces ")")
             [PStr "Joe"; PInt 32] eq_refl).
  - exact (translate_qmark_contract
             (text_pieces "values (" ++ [Positional] ++ text_pieces ", "
                ++ [Positional] ++ text_pieces ")")
             [PTuple [PStr "Joe"; PInt 32]] eq_refl).
Defined.

(** C1 as stated fails when the single argument is an empty mapping: the
    guard [and args[0]] sends it to the positional branch.  A statement
    without placeholders is then refused, and a statement with one [%s]
    gets the tuple that holds the mapping, not the mapping. *)
Lemma translate_qmark_empty_mapping :
  translate qmark "select 1" [PDict []]
  = Raise (TypeError "not all arguments converted during string formatting")
  ∧ translate qmark "select 1" [PDict []] ≠ Return ("select 1", PDict [])
  ∧ translate qmark "select %s" [PDict []]
    = Return ("select ?", PTuple [PDict []]).
Proof. split; [reflexivity|split; [discriminate|reflexivity]]. Qed.

(** A count of [%s] that differs from the number of markers is a
    [TypeError] of the formatting operator. *)
Lemma format_count_mismatch n ps :
  forallb wf_piece ps = true →
  forallb (fun p => negb (is_named p)) ps = true →
  ∀ idx, (idx ≤ n)%nat → (idx + count_positional ps ≠ n)%nat →
  ∃ msg, format_from Literal (statement_text ps) (FmtTuple (qmarks n)) idx
         = Raise (TypeError msg).
Proof.
  induction ps as [|p ps IH]; intros Hwf Hps idx Hle Hcount.
  - simpl in *. unfold qmarks. rewrite length_replicate.
    destruct (Nat.ltb_spec idx n); [eauto|lia].
  - simpl in Hwf, Hps, Hcount.
    apply andb_prop in Hwf as [Hp Hwf]. apply andb_prop in Hps as [Hnamed Hps].
    specialize (IH Hwf Hps).
    destruct p as [c| | |key]; cbn [statement_text].
    + simpl in Hp, Hcount. apply negb_true_iff in Hp.
      cbn [format_from]. rewrite Hp.
      destruct (IH idx) as [msg ->]; [done..|]. eauto.
    + simpl in Hcount. scan_step.
      destruct (IH idx) as [msg ->]; [done..|]. eauto.
    + simpl in Hcount. scan_step.
      destruct (decide (idx < n)%nat) as [Hlt|Hge].
      * rewrite qmarks_lookup by done.
        destruct (IH (S idx)) as [msg ->]; [lia..|]. eauto.
      * unfold qmarks.
        rewrite (proj1 (lookup_replicate_None n "?" idx)) by lia. eauto.
    + done.
Qed.

Lemma translate_count_mismatch ps args :
  forallb wf_piece ps = true →
  forallb (fun p => negb (is_named p)) ps = true →
  single_mapping args = false →
  count_positional ps ≠ marker_count args →
  ∃ msg, translate qmark (statement_text ps) args = Raise (TypeError msg).
Proof.
  intros Hwf Hnamed Hsingle Hcount.
  destruct args as [|arg0 rest]; unfold translate, py_format.
  - cbn [length].
    destruct (format_count_mismatch 0 ps Hwf Hnamed 0%nat) as [msg ->];
      [lia|done|eauto].
  - rewrite not_single_mapping by done.
    unfold marker_count in Hcount. simpl andb.
    destruct (issequenceform arg0);
      (destruct (format_count_mismatch _ ps Hwf Hnamed 0%nat (Nat.le_0_l _) Hcount)
         as [msg ->]; eauto).
Qed.

(** [str % args] raises nothing but its own errors. *)
Lemma format_from_raises fmt args :
  ∀ st idx e, format_from st fmt args idx = Raise e → is_format_error e = true.
Proof.
  induction fmt as [|c fmt IH]; intros st idx e.
  - destruct st, args; simpl; intros Hraise; repeat case_match;
      try discriminate; injection Hraise as <-; done.
  - destruct st; cbn [format_from]; repeat case_match; intros Hraise;
      simplify_eq; try done; eauto;
      try match goal with
      | H : mbind _ (format_from ?st ?f ?a ?i) = Raise _ |- _ =>
          destruct (format_from st f a i) eqn:Hsub;
          simpl in H; simplify_eq; eauto
      end.
Qed.

Lemma translate_raises style command args e :
  translate style command args = Raise e → is_format_error e = true.
Proof.
  unfold translate, py_format.
  destruct style; repeat case_match; intros Hraise; simplify_eq;
    match goal with
    | H : mbind _ (format_from ?st ?f ?a ?i) = Raise _ |- _ =>
        destruct (format_from st f a i) eqn:Hsub;
        simpl in H; simplify_eq; eauto using format_from_raises
    end.
Qed.

End Translate.

(** ** The executor: errors, return value, debug log *)

Module Executor.

Section Call.
Variables (self : Database) (heap : cursors).
Variables (command : string) (args : list pyvalue) (start stop : Q).

Lemma get_connection_fields :
  paramstyle (get_connection self).1 = paramstyle self
  ∧ debug (get_connection self).1 = debug self
  ∧ log (get_connection self).1 = log self.
Proof.
  unfold get_connection. destruct (connection self); [done|].
  destruct (factory self _ _); done.
Qed.

Lemma new_cursor_ok c cs0 :
  (get_connection self).2 = Return c →
  conn_cursor c = inr cs0 →
  new_cursor self heap
  = ((get_connection self).1, <[fresh (dom heap) := cs0]> heap,
     Return (fresh (dom heap), c)).
Proof.
  unfold new_cursor. destruct (get_connection self) as [self' [c'| |]];
    simpl; intros Hc Hcur; simplify_eq. by rewrite Hcur.
Qed.

Lemma new_cursor_log : log (self_after (new_cursor self heap)) = log self.
Proof.
  unfold new_cursor. pose proof get_connection_fields as (_ & _ & Hlog).
  destruct (get_connection self) as [self' [c'| |]]; [|done..].
  destruct (conn_cursor c'); done.
Qed.

Lemma execute_unfold c cs0 :
  (get_connection self).2 = Return c →
  conn_cursor c = inr cs0 →
  execute self heap command args start stop
  = _execute (get_connection self).1
      (<[fresh (dom heap) := cs0]> heap) (fresh (dom heap))
      (conn_execute c) command args start stop.
Proof. intros Hc Hcur. unfold execute. by rewrite (new_cursor_ok c cs0). Qed.

Lemma execute_many_unfold c cs0 :
  (get_connection self).2 = Return c →
  conn_cursor c = inr cs0 →
  execute_many self heap command args start stop
  = _execute (get_connection self).1
      (<[fresh (dom heap) := cs0]> heap) (fresh (dom heap))
      (conn_executemany c) command args start stop.
Proof.
  intros Hc Hcur. unfold execute_many. by rewrite (new_cursor_ok c cs0).
Qed.

Variables (cursor : cursor_ref) (method : driver_method).

Lemma _execute_translate_error e :
  translate (paramstyle self) command args = Raise e →
  _execute self heap cursor method command args start stop
  = (self, heap, Raise e).
Proof. intros Ht. unfold _execute. by rewrite Ht. Qed.

Lemma _execute_driver_error cs cmd params error :
  heap !! cursor = Some cs →
  translate (paramstyle self) command args = Return (cmd, params) →
  method cmd params cs = inl error →
  _execute self heap cursor method command args start stop
  = (trace self start stop cmd args, heap,
     Raise (DatabaseException (ErrorPayload cmd args (err_text error)))).
Proof. intros Hcs Ht Hm. unfold _execute. by rewrite Ht, Hcs, Hm. Qed.

Lemma _execute_driver_ok cs cmd params cs' :
  heap !! cursor = Some cs →
  translate (paramstyle self) command args = Return (cmd, params) →
  method cmd params cs = inr cs' →
  _execute self heap cursor method command args start stop
  = let traced :=
      trace (set_rowcount self (cur_rowcount cs')) start stop cmd args in
    if has_description cs'
    then (traced, <[cursor := cs']> heap,
          Return (ResultValue (mkResult cursor ARRAY_SIZE)))
    else (set_lastrowid traced (cur_lastrowid cs'), <[cursor := cs']> heap,
          Return (LastRowId (cur_lastrowid cs'))).
Proof. intros Hcs Ht Hm. unfold _execute. by rewrite Ht, Hcs, Hm. Qed.

Lemma trace_log cmd :
  log (trace self start stop cmd args)
  = (log self ++ if debug self
                 then [TraceLine ((stop - start) * 1000)%Q cmd args]
                 else [])%list.
Proof. unfold trace. destruct (debug self); simpl; by rewrite ?app_nil_r. Qed.

Lemma _execute_no_backend_exception e :
  outcome_of (_execute self heap cursor method command args start stop)
  ≠ Raise (BackendException e).
Proof.
  unfold _execute.
  destruct (translate (paramstyle self) command args) as [[cmd params]|e'|] eqn:Ht.
  - destruct (heap !! cursor) as [cs|]; [|done].
    destruct (method cmd params cs) as [error|cs']; [done|].
    destruct (has_description cs'); done.
  - apply Translate.translate_raises in Ht. destruct e'; done.
  - done.
Qed.

Lemma _execute_log_debug_off :
  debug self = false →
  log (self_after (_execute self heap cursor method command args start stop))
  = log self.
Proof.
  intros Hdebug. unfold _execute, trace.
  destruct (translate (paramstyle self) command args) as [[cmd params]|e'|];
    [|done..].
  destruct (heap !! cursor) as [cs|]; [|done].
  destruct (method cmd params cs) as [error|cs']; simpl; rewrite ?Hdebug; [done|].
  destruct (has_description cs'); done.
Qed.

End Call.

(** C2, as the code has it.  When the driver raises while the statement
    runs, [execute] and [execute_many] raise [DatabaseException]; its
    payload holds the statement text as translated for the backend (the
    text the driver received, which is the caller's text only on a
    pyformat backend), the arguments as the caller supplied them, and the
    driver's message.  No driver exception leaves [_execute]. *)
Theorem driver_errors_are_wrapped (self : Database) (heap : cursors)
    (command : string) (args : list pyvalue) (start stop : Q)
    (c : connection_t) (cs0 : cursor_state) (cmd : string) (params : pyvalue) :
  (get_connection self).2 = Return c →
  conn_cursor c = inr cs0 →
  translate (paramstyle self) command args = Return (cmd, params) →
  (∀ error,
     conn_execute c cmd params cs0 = inl error →
     outcome_of (execute self heap command args start stop)
     = Raise (DatabaseException (ErrorPayload cmd args (err_text error))))
  ∧ (∀ error,
       conn_executemany c cmd params cs0 = inl error →
       outcome_of (execute_many self heap command args start stop)
       = Raise (DatabaseException (ErrorPayload cmd args (err_text error))))
  ∧ (∀ cursor method e,
       outcome_of (_execute self heap cursor method command args start stop)
       ≠ Raise (BackendException e)).
Proof.
  intros Hc Hcur Ht.
  pose proof (get_connection_fields self) as (Hstyle & _ & _).
  split; [|split].
  - intros error Herr. rewrite (execute_unfold _ _ _ _ _ _ c cs0) by done.
    erewrite _execute_driver_error; [done| |by rewrite Hstyle|done].
    apply lookup_insert_eq.
  - intros error Herr. rewrite (execute_many_unfold _ _ _ _ _ _ c cs0) by done.
    erewrite _execute_driver_error; [done| |by rewrite Hstyle|done].
    apply lookup_insert_eq.
  - intros cursor method e. apply _execute_no_backend_exception.
Qed.

Lemma driver_errors_are_wrapped_witness :
  outcome_of (execute (sample_db refuse) ∅ "select * from person where id=%s"
                [PInt 1] 0 1)
  = Raise (DatabaseException
             (ErrorPayload "select * from person where id=?" [PInt 1]
                "no such table: person")).
Proof.
  apply (proj1 (driver_errors_are_wrapped (sample_db refuse) ∅
                  "select * from person where id=%s" [PInt 1] 0 1
                  (sample_connection refuse) fresh_cursor
                  "select * from person where id=?" (PTuple [PInt 1])
                  eq_refl eq_refl eq_refl)
           (DriverError "OperationalError" "no such table: person")).
  reflexivity.
Defined.

(** C2 as stated fails on a qmark backend: the payload holds the translated
    statement, not the text the caller passed. *)
Lemma payload_has_translated_statement :
  ∃ payload,
    outcome_of (execute (sample_db refuse) ∅ "select * from person where id=%s"
                  [PInt 1] 0 1)
    = Raise (DatabaseException payload)
    ∧ ep_statement payload = "select * from person where id=?"
    ∧ ep_statement payload ≠ "select * from person where id=%s".
Proof. eexists. split; [reflexivity|]. split; [reflexivity|discriminate]. Qed.

(** C6.  When the statement has run, [execute] returns a [Result] on the
    cursor exactly when the cursor's description is not empty; otherwise it
    returns the cursor's [lastrowid], which it also stores. *)
Theorem execute_returns_result_or_lastrowid (self : Database) (heap : cursors)
    (command : string) (args : list pyvalue) (start stop : Q)
    (c : connection_t) (cs0 : cursor_state) (cmd : string) (params : pyvalue)
    (cs : cursor_state) :
  (get_connection self).2 = Return c →
  conn_cursor c = inr cs0 →
  translate (paramstyle self) command args = Return (cmd, params) →
  conn_execute c cmd params cs0 = inr cs →
  let call := execute self heap command args start stop in
  ((∃ r, outcome_of call = Return (ResultValue r)) ↔ has_description cs = true)
  ∧ (has_description cs = true →
     ∃ r, outcome_of call = Return (ResultValue r)
          ∧ heap_after call !! cursor r = Some cs
          ∧ array_size r = ARRAY_SIZE)
  ∧ (has_description cs = false →
     outcome_of call = Return (LastRowId (cur_lastrowid cs))
     ∧ lastrowid (self_after call) = cur_lastrowid cs).
Proof.
  intros Hc Hcur Ht Hm call.
  pose proof (get_connection_fields self) as (Hstyle & _ & _).
  unfold call. clear call. rewrite (execute_unfold _ _ _ _ _ _ c cs0) by done.
  erewrite _execute_driver_ok;
    [|apply lookup_insert_eq|by rewrite Hstyle|done].
  simpl.
  destruct (has_description cs); unfold outcome_of, heap_after, self_after; simpl.
  - split; [split; eauto|]. split; [|done].
    intros _. eexists. split; [done|]. simpl.
    split; [apply lookup_insert_eq|done].
  - split; [split; [intros [r Hr]|]; done|]. split; [done|]. done.
Qed.

Lemma execute_returns_result_or_lastrowid_witness :
  (∃ r, outcome_of (execute (sample_db select_rows) ∅ "select * from person"
                      [] 0 1) = Return (ResultValue r))
  ∧ outcome_of (execute (sample_db insert_row) ∅
                  "insert into person (name) values (%s)" [PStr "Joe"] 0 1)
    = Return (LastRowId (Some 4)).
Proof.
  split.
  - apply (execute_returns_result_or_lastrowid (sample_db select_rows) ∅
             "select * from person" [] 0 1 (sample_connection select_rows)
             fresh_cursor "select * from person" (PTuple [])
             (Cursor (Some ["id"; "name"]) (-1) None
                [[PInt 1; PStr "Joe"]; [PInt 2; PStr "Ann"]])
             eq_refl eq_refl eq_refl eq_refl).
    reflexivity.
  - apply (execute_returns_result_or_lastrowid (sample_db insert_row) ∅
             "insert into person (name) values (%s)" [PStr "Joe"] 0 1
             (sample_connection insert_row) fresh_cursor
             "insert into person (name) values (?)" (PTuple [PStr "Joe"])
             (Cursor None 1 (Some 4) [])
             eq_refl eq_refl eq_refl eq_refl).
    reflexivity.
Defined.

(** C7, as the code has it.  With [debug] off no call to [execute] changes
    the log.  With [debug] on, a call whose statement is translated and
    handed to the driver appends exactly one trace line, whether the driver
    returns or raises: the elapsed milliseconds, the translated statement
    and the arguments. *)
Theorem debug_trace (self : Database) (heap : cursors)
    (command : string) (args : list pyvalue) (start stop : Q) :
  let call := execute self heap command args start stop in
  (debug self = false → log (self_after call) = log self)
  ∧ (debug self = true →
     ∀ c cs0 cmd params,
       (get_connection self).2 = Return c →
       conn_cursor c = inr cs0 →
       translate (paramstyle self) command args = Return (cmd, params) →
       log (self_after call)
       = (log self ++ [TraceLine ((stop - start) * 1000)%Q cmd args])%list).
Proof.
  intros call.
  pose proof (get_connection_fields self) as (Hstyle & Hdebug & Hlog).
  split.
  - intros Hoff. unfold call, execute.
    pose proof (new_cursor_log self heap) as Hnew.
    destruct (new_cursor self heap) as [[self1 heap1] [[ref c]|e|]] eqn:Hcur;
      [|done..].
    unfold self_after in Hnew. simpl in Hnew. rewrite <- Hnew.
    apply _execute_log_debug_off.
    unfold new_cursor in Hcur.
    destruct (get_connection self) as [self' [c'| |]]; simplify_eq.
    destruct (conn_cursor c'); simplify_eq. simpl in *.
    congruence.
  - intros Hon c cs0 cmd params Hc Hcur Ht. unfold call.
    rewrite (execute_unfold _ _ _ _ _ _ c cs0) by done.
    rewrite <- Hstyle in Ht.
    destruct (conn_execute c cmd params cs0) as [error|cs] eqn:Hm.
    + erewrite _execute_driver_error; [|apply lookup_insert_eq|done..].
      unfold self_after. simpl. by rewrite trace_log, Hdebug, Hon, Hlog.
    + erewrite _execute_driver_ok; [|apply lookup_insert_eq|done..].
      unfold self_after.
      destruct (has_description cs); simpl;
        by rewrite trace_log; simpl; rewrite Hdebug, Hon, Hlog.
Qed.

Lemma debug_trace_witness :
  log (self_after (execute (sample_db refuse) ∅ "select * from person where id=%s"
                     [PInt 1] 0 (1 # 4)))
  = [TraceLine (((1 # 4) - 0) * 1000)%Q "select * from person where id=?" [PInt 1]]
  ∧ log (self_after (execute (set_debug (sample_db refuse) false) ∅
                       "select * from person where id=%s" [PInt 1] 0 (1 # 4)))
    = [].
Proof.
  split.
  - apply (proj2 (debug_trace (sample_db refuse) ∅
                    "select * from person where id=%s" [PInt 1] 0 (1 # 4))
             eq_refl (sample_connection refuse) fresh_cursor
             "select * from person where id=?" (PTuple [PInt 1])
             eq_refl eq_refl eq_refl).
  - apply (proj1 (debug_trace (set_debug (sample_db refuse) false) ∅
                    "select * from person where id=%s" [PInt 1] 0 (1 # 4))
             eq_refl).
Defined.

(** C7 as stated fails for a call whose translation raises: [debug] is on
    and nothing is appended. *)
Lemma no_trace_when_translation_fails :
  debug (sample_db select_rows) = true
  ∧ outcome_of (execute (sample_db select_rows) ∅ "select 1" [PInt 5] 0 1)
    = Raise (TypeError "not all arguments converted during string formatting")
  ∧ log (self_after (execute (sample_db select_rows) ∅ "select 1" [PInt 5] 0 1))
    = log (sample_db select_rows).
Proof. split; [reflexivity|split; reflexivity]. Qed.

(** C10.  An exception of the translation step is raised by [execute] as it
    is: it is an error of the formatting operator, not a
    [DatabaseException], and the log is as it was, whatever [debug] says. *)
Theorem translation_failure_propagates (self : Database) (heap : cursors)
    (command : string) (args : list pyvalue) (start stop : Q) (e : exception) :
  translate (paramstyle self) command args = Raise e →
  is_format_error e = true
  ∧ (∀ payload, e ≠ DatabaseException payload)
  ∧ (∀ cursor method,
       _execute self heap cursor method command args start stop
       = (self, heap, Raise e))
  ∧ log (self_after (execute self heap command args start stop)) = log self
  ∧ (∀ c cs0, (get_connection self).2 = Return c → conn_cursor c = inr cs0 →
              outcome_of (execute self heap command args start stop) = Raise e).
Proof.
  intros Ht.
  pose proof (get_connection_fields self) as (Hstyle & Hdebug & Hlog).
  pose proof (Translate.translate_raises _ _ _ _ Ht) as Hfmt.
  split; [done|]. split; [by intros payload ->|].
  split; [intros; by apply _execute_translate_error|].
  assert (∀ c cs0, (get_connection self).2 = Return c → conn_cursor c = inr cs0 →
               execute self heap command args start stop
               = ((get_connection self).1,
                  <[fresh (dom heap) := cs0]> heap, Raise e))
    as Hcall.
  { intros c cs0 Hc Hcur. rewrite (execute_unfold _ _ _ _ _ _ c cs0) by done.
    apply _execute_translate_error. by rewrite Hstyle. }
  split.
  - destruct ((get_connection self).2) as [c| |] eqn:Hc.
    + destruct (conn_cursor c) as [error|cs0] eqn:Hcur.
      * unfold execute, new_cursor.
        destruct (get_connection self) as [self' [c'| |]]; simpl in *;
          simplify_eq.
        by rewrite Hcur.
      * by rewrite (Hcall c cs0).
    + unfold execute, new_cursor.
      destruct (get_connection self) as [self' [c'| |]]; simplify_eq; done.
    + unfold execute, new_cursor.
      destruct (get_connection self) as [self' [c'| |]]; simplify_eq; done.
  - intros c cs0 Hc Hcur. by rewrite (Hcall c cs0).
Qed.

Lemma translation_failure_propagates_witness :
  outcome_of (execute (sample_db select_rows) ∅
                "select * from person where id=%s and age=%s" [PInt 1] 0 1)
  = Raise (TypeError "not enough arguments for format string")
  ∧ log (self_after (execute (sample_db select_rows) ∅
                       "select * from person where id=%s and age=%s"
                       [PInt 1] 0 1))
    = [].
Proof.
  pose proof (translation_failure_propagates (sample_db select_rows) ∅
                "select * from person where id=%s and age=%s" [PInt 1] 0 1
                (TypeError "not enough arguments for format string") eq_refl)
    as (_ & _ & _ & Hlog & Hout).
  split; [|exact Hlog].
  exact (Hout (sample_connection select_rows) fresh_cursor eq_refl eq_refl).
Defined.

End Executor.

(** ** [Result]: iteration consumes the cursor *)

Module Results.

Lemma take_nil_drop {A} (size : nat) (l : list A) :
  take size l = [] → drop size l = l.
Proof. destruct size, l; done. Qed.

Lemma fetchmany_nothing size cs :
  (fetchmany size cs).1 = [] → fetchmany size cs = ([], cs).
Proof.
  unfold fetchmany. simpl. intros Htake.
  rewrite Htake, take_nil_drop by done. by destruct cs.
Qed.

(** After the loop the next [fetchmany] has nothing to return. *)
Lemma fetch_loop_exhausts size cs :
  (fetchmany size (fetch_loop size cs).2).1 = [].
Proof.
  funelim (fetch_loop size cs); [|done].
  match goal with
  | H : take (batch_size size cs) (cur_pending cs) = [] |- _ =>
      pose proof (fetchmany_nothing size cs H) as Hsame; rename H into Htake
  end.
  unfold fetchmany in Hsame. injection Hsame as _ Hcs.
  cbn [snd]. rewrite Hcs. exact Htake.
Qed.

(** On such a cursor the loop stops at once and leaves it as it is. *)
Lemma fetch_loop_exhausted size cs :
  (fetchmany size cs).1 = [] → fetch_loop size cs = ([], cs).
Proof.
  intros Htake. funelim (fetch_loop size cs).
  - pose proof (fetchmany_nothing size cs Htake) as Hsame.
    unfold fetchmany in Hsame. by injection Hsame as _ ->.
  - unfold fetchmany in Htake. simpl in Htake. congruence.
Qed.

(** When [fetchmany] never asks for 0 rows, whether by a positive size or
    by what the driver takes size 0 for, one iteration yields every pending
    row, in order. *)
Lemma fetch_loop_batches size cs :
  (0 < size)%nat ∨ cur_arraysize cs ≠ Some 0%nat →
  (fetch_loop size cs).1 = cur_pending cs
  ∧ cur_pending (fetch_loop size cs).2 = [].
Proof.
  intros Hsize. funelim (fetch_loop size cs); simpl.
  - match goal with H : take _ _ = [] |- _ => rename H into Htake end.
    assert (cur_pending cs = []) as Hnone.
    { unfold batch_size in Htake.
      destruct size as [|size].
      - destruct (cur_arraysize cs) as [[|n]|] eqn:Hsz.
        + by destruct Hsize as [?|?]; [lia|].
        + by destruct (cur_pending cs).
        + by rewrite firstn_all in Htake.
      - by destruct (cur_pending cs). }
    by rewrite Hnone, drop_nil.
  - match goal with
    | IH : _ ∨ _ → _ ∧ _ |- _ => destruct (IH Hsize) as [Hrows Hleft]
    end.
    rewrite Hrows, Hleft. simpl. split; [|done].
    match goal with
    | H : take _ _ = ?batch |- _ =>
        change ((batch ++ drop (batch_size size cs) (cur_pending cs))%list
                = cur_pending cs);
        rewrite <- H
    end.
    apply take_drop.
Qed.

(** With a positive batch size one iteration yields every pending row, in
    order. *)
Lemma fetch_loop_all_rows size cs :
  (0 < size)%nat →
  (fetch_loop size cs).1 = cur_pending cs
  ∧ cur_pending (fetch_loop size cs).2 = [].
Proof. intros Hsize. apply fetch_loop_batches. by left. Qed.

(** C9.  After one full iteration of a [Result], a second iteration of the
    same [Result] yields no rows and leaves the cursor as it is. *)
Theorem second_iteration_is_empty (self : Result) (heap heap' : cursors)
    (rows : list row) :
  Result_iter self heap = Some (rows, heap') →
  Result_iter self heap' = Some ([], heap').
Proof.
  unfold Result_iter. intros Hfirst.
  destruct (heap !! cursor self) as [cs|] eqn:Hcs; [|done].
  injection Hfirst as <- <-.
  rewrite lookup_insert_eq.
  rewrite fetch_loop_exhausted by apply fetch_loop_exhausts.
  simpl. f_equal. f_equal. apply insert_insert_eq.
Qed.

Lemma second_iteration_is_empty_witness :
  let result := mkResult 0 2 in
  let rows := [[PInt 1; PStr "Joe"]; [PInt 2; PStr "Ann"]; [PInt 3; PStr "Bob"]] in
  let heap : cursors := {[ 0%nat := Cursor (Some ["id"; "name"]) (-1) None rows ]} in
  let heap' : cursors := {[ 0%nat := Cursor (Some ["id"; "name"]) (-1) None [] ]} in
  Result_iter result heap = Some (rows, heap')
  ∧ Result_iter result heap' = Some ([], heap').
Proof.
  intros result rows heap heap'.
  assert (Result_iter result heap = Some (rows, heap')) as Hfirst.
  { unfold Result_iter, heap. rewrite lookup_singleton_eq.
    unfold heap'. by rewrite insert_singleton_eq. }
  split; [exact Hfirst|].
  exact (second_iteration_is_empty result heap heap' rows Hfirst).
Defined.

End Results.

(** ** Choosing the backend *)

Module Backend.

Lemma keyword_clash_set {V} params (kwargs : list (string * V)) key value :
  key ∉ params →
  keyword_clash params (dict_set kwargs key value) = keyword_clash params kwargs.
Proof.
  intros Hkey. induction kwargs as [|[k v] kwargs IH]; simpl.
  - by rewrite bool_decide_eq_false_2.
  - destruct (String.eqb k key); simpl; [done|]. by rewrite IH.
Qed.

Lemma keyword_clash_self {V} (kwargs : list (string * V)) :
  keyword_clash ["self"; "factory"] kwargs = None →
  keyword_clash ["self"] kwargs = None.
Proof.
  induction kwargs as [|[k v] kwargs IH]; simpl; [done|].
  repeat case_bool_decide; try done; set_solver.
Qed.

Lemma keyword_clash_factory {V} (kwargs : list (string * V)) param :
  keyword_clash ["self"; "factory"] kwargs = Some param →
  keyword_clash ["self"] kwargs = None →
  keyword_clash ["self"; "factory"] kwargs = Some "factory".
Proof.
  induction kwargs as [|[k v] kwargs IH]; simpl; [done|].
  destruct (decide (k ∈ ["self"; "factory"])) as [Hin|Hout].
  - rewrite (bool_decide_eq_true_2 _ Hin).
    destruct (decide (k ∈ ["self"])) as [Hself|Hnot].
    + by rewrite (bool_decide_eq_true_2 _ Hself).
    + intros _ _. f_equal. set_solver.
  - rewrite (bool_decide_eq_false_2 _ Hout).
    rewrite bool_decide_eq_false_2 by set_solver. apply IH.
Qed.

(** What a constructor call gives: the executor when the keywords bind, a
    [TypeError] when one of them is [self] or [factory]. *)
Lemma constructor_call style connect args kwargs key value :
  key ∉ ["self"; "factory"] →
  match keyword_clash ["self"] kwargs with
  | Some param => Raise (multiple_values "__init__" param)
  | None => Database_call style connect args (dict_set kwargs key value)
  end
  = if keywords_bind kwargs
    then Return (Database_init style connect args (dict_set kwargs key value))
    else Raise (multiple_values "__init__"
                  (default "factory" (keyword_clash ["self"] kwargs))).
Proof.
  intros Hkey. unfold keywords_bind, Database_call.
  rewrite keyword_clash_set by done.
  destruct (keyword_clash ["self"; "factory"] kwargs) as [param|] eqn:Hclash.
  - destruct (keyword_clash ["self"] kwargs) as [param'|] eqn:Hself; [done|].
    simpl. rewrite (keyword_clash_factory kwargs param) in Hclash by done.
    by simplify_eq.
  - by rewrite keyword_clash_self.
Qed.

Lemma Sqlite3Database_call connect parse_decltypes args kwargs :
  Sqlite3Database connect parse_decltypes args kwargs
  = if keywords_bind kwargs
    then Return (Database_init qmark connect args
                   (dict_set kwargs "detect_types" (PInt parse_decltypes)))
    else Raise (multiple_values "__init__"
                  (default "factory" (keyword_clash ["self"] kwargs))).
Proof. apply constructor_call. set_solver. Qed.

Lemma MySQLDatabase_call connect args kwargs :
  MySQLDatabase connect args kwargs
  = if keywords_bind kwargs
    then Return (Database_init pyformat connect args
                   (dict_set kwargs "charset" (PStr "utf8")))
    else Raise (multiple_values "__init__"
                  (default "factory" (keyword_clash ["self"] kwargs))).
Proof. apply constructor_call. set_solver. Qed.

(** C5, as the code has it.  [database] raises [UnkownDatabaseException]
    exactly for the names other than ["sqlite3"] and ["mysql"], when no
    keyword is named [engine].  For these two names, a keyword named
    [engine], [self] or [factory] makes the call raise [TypeError] and no
    executor is made.  Otherwise: for ["sqlite3"] it returns the executor
    without connecting; for ["mysql"] it connects and calls
    [autocommit(1)]: it returns the connected executor when both succeed,
    and otherwise raises the driver's exception as it is. *)
Theorem database_backend_names (sqlite3_connect pymysql_connect : factory_t)
    (parse_decltypes : Z) (engine : string)
    (args : list pyvalue) (kwargs : list (string * pyvalue)) :
  (database sqlite3_connect pymysql_connect parse_decltypes engine args kwargs
   = Raise UnkownDatabaseException
   ↔ engine ≠ "sqlite3" ∧ engine ≠ "mysql"
     ∧ keyword_clash ["engine"] kwargs = None)
  ∧ (call_binds kwargs = true →
     let lite :=
       Database_init qmark sqlite3_connect args
         (dict_set kwargs "detect_types" (PInt parse_decltypes)) in
     let my :=
       Database_init pyformat pymysql_connect args
         (dict_set kwargs "charset" (PStr "utf8")) in
     database sqlite3_connect pymysql_connect parse_decltypes "sqlite3" args kwargs
     = Return lite
     ∧ connection lite = None
     ∧ database sqlite3_connect pymysql_connect parse_decltypes "mysql" args kwargs
       = match pymysql_connect args (dict_set kwargs "charset" (PStr "utf8")) with
         | inl error => Raise (BackendException error)
         | inr c =>
             match conn_autocommit c 1 with
             | Some error => Raise (BackendException error)
             | None => Return (set_connection my c)
             end
         end)
  ∧ (call_binds kwargs = false →
     ∃ msg,
       database sqlite3_connect pymysql_connect parse_decltypes "sqlite3" args
         kwargs
       = Raise (TypeError msg)
       ∧ database sqlite3_connect pymysql_connect parse_decltypes "mysql" args
           kwargs
         = Raise (TypeError msg)).
Proof.
  assert (∀ db : Database,
            match get_connection db with
            | (db', Return c) =>
                match conn_autocommit c 1 with
                | Some error => Raise (BackendException error)
                | None => Return db'
                end
            | (_, Raise e) => Raise e
            | (_, Unmodelled) => Unmodelled
            end ≠ Raise UnkownDatabaseException) as Hconnect.
  { intros db. unfold get_connection. destruct (connection db) as [c|].
    - destruct (conn_autocommit c 1); done.
    - destruct (factory db _ _) as [error|c]; [done|].
      destruct (conn_autocommit c 1); done. }
  split; [|split].
  - unfold database.
    destruct (keyword_clash ["engine"] kwargs) as [param|];
      [split; [done|by intros (_ & _ & ?)]|].
    destruct (String.eqb_spec engine "sqlite3") as [->|Hsqlite].
    { split; [|by intros [? _]].
      rewrite Sqlite3Database_call. by destruct (keywords_bind kwargs). }
    destruct (String.eqb_spec engine "mysql") as [->|Hmysql]; [|done].
    split; [|by intros (_ & ? & _)].
    rewrite MySQLDatabase_call. destruct (keywords_bind kwargs); [|done].
    intros Hraise. by apply Hconnect in Hraise.
  - intros Hbind lite my. unfold call_binds in Hbind. unfold database.
    destruct (keyword_clash ["engine"] kwargs) as [param|]; [done|]. simpl.
    rewrite Sqlite3Database_call, MySQLDatabase_call, Hbind.
    split; [done|]. split; [done|].
    unfold get_connection, Database_init. simpl.
    destruct (pymysql_connect _ _) as [error|c]; [done|].
    destruct (conn_autocommit c 1); done.
  - unfold call_binds, database.
    destruct (keyword_clash ["engine"] kwargs) as [param|];
      [intros _; unfold multiple_values; eauto|].
    intros Hbind. simpl.
    rewrite Sqlite3Database_call, MySQLDatabase_call, Hbind.
    unfold multiple_values. eauto.
Qed.

Lemma database_backend_names_witness :
  let connect := connect_to (sample_connection select_rows) in
  database connect connect 1 "sqlite3" [PStr ":memory:"] []
  = Return (Database_init qmark connect [PStr ":memory:"]
              [("detect_types", PInt 1)])
  ∧ ∃ msg,
      database connect connect 1 "sqlite3" [PStr ":memory:"]
        [("factory", PNone)]
      = Raise (TypeError msg).
Proof.
  intros connect. split.
  - exact (proj1 (proj1 (proj2 (database_backend_names connect connect 1
                                  "sqlite3" [PStr ":memory:"] []))
                    eq_refl)).
  - destruct (proj2 (proj2 (database_backend_names connect connect 1
                              "sqlite3" [PStr ":memory:"] [("factory", PNone)]))
                eq_refl) as (msg & Hlite & _).
    by exists msg.
Defined.

(** C5 as stated fails on the first name of its enumeration: ["sqlite"] is
    not a backend name of [database], ["sqlite3"] is.  And ["mysql"] does
    not succeed when the server refuses the connection. *)
Lemma sqlite_is_not_a_backend_name :
  let connect := connect_to (sample_connection select_rows) in
  database connect connect 1 "sqlite" [PStr ":memory:"] []
  = Raise UnkownDatabaseException
  ∧ (∃ db, database connect connect 1 "sqlite3" [PStr ":memory:"] [] = Return db)
  ∧ database connect connect_refused 1 "mysql" [] [("host", PStr "database")]
    = Raise (BackendException
               (DriverError "OperationalError" "cannot connect to server")).
Proof. split; [reflexivity|split; [eexists; reflexivity|reflexivity]]. Qed.

End Backend.

(** ** Group closure *)

Module Groups.

Lemma get_memberships_unfold group memberships depth :
  get_memberships group memberships depth
  = if decide (depth < 10)%nat
    then fold_left
           (visit (fun grp => get_memberships grp memberships (S depth)) group)
           memberships [group]
    else [group].
Proof.
  simp get_memberships.
  destruct (lt_dec depth 10), (decide (depth < 10)%nat); try lia; done.
Qed.

Lemma get_memberships_traced_unfold group memberships depth :
  get_memberships_traced group memberships depth
  = if decide (depth < 10)%nat
    then fold_left
           (visit_traced
              (fun grp => get_memberships_traced grp memberships (S depth))
              depth group)
           memberships ([group], [])
    else ([group], []).
Proof.
  simp get_memberships_traced.
  destruct (lt_dec depth 10), (decide (depth < 10)%nat); try lia; done.
Qed.

(** *** The loop, for any function in place of the recursive call *)

Section Loop.
Variables (group : Z).

Lemma visit_traced_erase expand expand' depth state edge :
  (∀ grp, (expand' grp).1 = expand grp) →
  (visit_traced expand' depth group state edge).1
  = visit expand group state.1 edge.
Proof.
  intros Hexp. unfold visit_traced, visit. destruct edge as [grp sgrp].
  destruct ((group =? sgrp) && negb (id_in grp state.1)); simpl; [|done].
  by rewrite Hexp.
Qed.

Lemma fold_traced_erase expand expand' depth edges state :
  (∀ grp, (expand' grp).1 = expand grp) →
  (fold_left (visit_traced expand' depth group) edges state).1
  = fold_left (visit expand group) edges state.1.
Proof.
  intros Hexp. revert state.
  induction edges as [|edge edges IH]; intros state; [done|].
  simpl. rewrite IH. by rewrite (visit_traced_erase expand).
Qed.

Lemma fold_traced_events (P : call_event → Prop) expand' depth edges state :
  (∀ grp, Forall P (expand' grp).2) →
  (∀ grp result, grp ∉ result → P (Call (S depth) grp result)) →
  Forall P state.2 →
  Forall P (fold_left (visit_traced expand' depth group) edges state).2.
Proof.
  intros Hsub Hcall. revert state.
  induction edges as [|[grp sgrp] edges IH]; intros state Hstate; [done|].
  simpl. apply IH. unfold visit_traced.
  destruct (group =? sgrp); simpl; [|done].
  unfold id_in. case_bool_decide; simpl; [done|].
  apply Forall_app. split; [done|]. constructor; [by apply Hcall|apply Hsub].
Qed.

Lemma fold_visit_length expand bound edges result :
  (∀ grp, (length (expand grp) ≤ bound)%nat) →
  (length (fold_left (visit expand group) edges result)
   ≤ length result + length edges * bound)%nat.
Proof.
  intros Hexp. revert result.
  induction edges as [|[grp sgrp] edges IH]; intros result; simpl; [lia|].
  etrans; [apply IH|]. unfold visit.
  destruct ((group =? sgrp) && negb (id_in grp result)); [|lia].
  rewrite length_app. specialize (Hexp grp). lia.
Qed.

Lemma fold_visit_elements (Q : Z → Prop) expand edges result :
  (∀ grp sgrp g, (grp, sgrp) ∈ edges → g ∈ expand grp → Q g) →
  Forall Q result →
  Forall Q (fold_left (visit expand group) edges result).
Proof.
  revert result.
  induction edges as [|[grp sgrp] edges IH]; intros result Hexp Hres; [done|].
  simpl. apply IH.
  - intros grp' sgrp' g Hin. apply (Hexp grp' sgrp'). by right.
  - unfold visit.
    destruct ((group =? sgrp) && negb (id_in grp result)); [|done].
    apply Forall_app. split; [done|].
    apply Forall_forall. intros g Hg. apply (Hexp grp sgrp); [left|done].
Qed.

Lemma fold_traced_entered expand' depth edges state root :
  (∀ grp, grp :: (call_group <$> (expand' grp).2) = (expand' grp).1) →
  root :: (call_group <$> state.2) = state.1 →
  root :: (call_group <$> (fold_left (visit_traced expand' depth group) edges state).2)
  = (fold_left (visit_traced expand' depth group) edges state).1.
Proof.
  intros Hsub. revert state.
  induction edges as [|[grp sgrp] edges IH]; intros state Hstate; [done|].
  simpl. apply IH. unfold visit_traced.
  destruct ((group =? sgrp) && negb (id_in grp state.1)); simpl; [|done].
  rewrite fmap_app, fmap_cons. simpl.
  rewrite <- Hstate, <- Hsub. by rewrite <- app_comm_cons.
Qed.

End Loop.

(** *** The recursion, by induction on the levels left below depth 10 *)

Section Expansion.
Variable memberships : list (Z * Z).

Lemma traced_erase levels :
  ∀ depth group, (10 - depth = levels)%nat →
    (get_memberships_traced group memberships depth).1
    = get_memberships group memberships depth.
Proof.
  induction levels as [|levels IH]; intros depth group Hlevels;
    rewrite get_memberships_traced_unfold, get_memberships_unfold;
    case_decide; try lia; [done|].
  apply (fold_traced_erase group). intros grp. apply IH. lia.
Qed.

Lemma traced_events levels :
  ∀ depth group, (10 - depth = levels)%nat →
    Forall (fun ev => (call_depth ev ≤ 10)%nat
                      ∧ call_group ev ∉ call_result ev)
           (get_memberships_traced group memberships depth).2.
Proof.
  induction levels as [|levels IH]; intros depth group Hlevels;
    rewrite get_memberships_traced_unfold;
    case_decide; try lia; [done|].
  apply fold_traced_events; [|simpl; split; [lia|done]|done].
  intros grp. apply IH. lia.
Qed.

Lemma expansion_length levels :
  ∀ depth group, (10 - depth = levels)%nat →
    (length (get_memberships group memberships depth)
     ≤ closure_bound (length memberships) levels)%nat.
Proof.
  induction levels as [|levels IH]; intros depth group Hlevels;
    rewrite get_memberships_unfold; case_decide; try lia; [done|].
  etrans; [apply (fold_visit_length _ _ (closure_bound (length memberships) levels))|].
  - intros grp. apply IH. lia.
  - simpl. lia.
Qed.

Lemma expansion_elements levels :
  ∀ depth group, (10 - depth = levels)%nat →
    Forall (fun g => g = group ∨ g ∈ memberships.*1)
           (get_memberships group memberships depth).
Proof.
  induction levels as [|levels IH]; intros depth group Hlevels;
    rewrite get_memberships_unfold; case_decide; try lia;
    [by repeat constructor|].
  apply fold_visit_elements; [|by repeat constructor].
  intros grp sgrp g Hedge Hg. right.
  assert (grp ∈ memberships.*1) as Hgrp.
  { apply list_elem_of_fmap. by exists (grp, sgrp). }
  specialize (IH (S depth) grp ltac:(lia)).
  rewrite Forall_forall in IH. destruct (IH g Hg) as [->|]; done.
Qed.

Lemma traced_entered levels :
  ∀ depth group, (10 - depth = levels)%nat →
    group :: (call_group <$> (get_memberships_traced group memberships depth).2)
    = (get_memberships_traced group memberships depth).1.
Proof.
  induction levels as [|levels IH]; intros depth group Hlevels;
    rewrite get_memberships_traced_unfold;
    case_decide; try lia; [done|].
  apply fold_traced_entered; [|done].
  intros grp. apply IH. lia.
Qed.

End Expansion.

Lemma named_groups_fold (groups : list Z) (group_rows : list (Z * string)) :
  ∀ named_groups,
    fold_left (fun named_groups rec =>
                 if id_in (fst rec) groups
                 then (named_groups ++ [strip (snd rec)])%list
                 else named_groups)
              group_rows named_groups
    = (named_groups
       ++ ((fun rec => strip (snd rec))
             <$> filter (fun rec => rec.1 ∈ groups) group_rows))%list.
Proof.
  induction group_rows as [|rec group_rows IH]; intros named_groups; simpl.
  - by rewrite app_nil_r.
  - rewrite IH, filter_cons. unfold id_in.
    case_bool_decide; case_decide; try done.
    simpl. by rewrite <- app_assoc.
Qed.

Lemma get_groups_filter my_groups subgroups group_rows :
  get_groups my_groups subgroups group_rows
  = (fun rec => strip (snd rec))
      <$> filter (fun rec => rec.1 ∈ closure_ids my_groups subgroups) group_rows.
Proof. unfold get_groups. by rewrite named_groups_fold. Qed.

Lemma get_groups_length my_groups subgroups group_rows :
  (length (get_groups my_groups subgroups group_rows) ≤ length group_rows)%nat.
Proof. rewrite get_groups_filter, length_fmap. apply length_filter. Qed.

(** C4, as the code has it.  The expansion of a group over any edge list,
    cyclic or not, returns: no call runs deeper than depth 10, and no call
    is made on a group that is in the calling frame's own [result] list at
    that moment.  Nothing more is kept from entering a group again: the
    list returned is the list of the groups entered, in order, with its
    repetitions.  Its length is bounded in the number of edges, it holds
    only the group and parent ids of the edges, and [get_groups] returns at
    most one name per row of the group table. *)
Theorem closure_terminates_bounded (group : Z) (memberships : list (Z * Z)) :
  let run := get_memberships_traced group memberships 0 in
  run.1 = get_memberships group memberships 0
  ∧ Forall (fun ev => (call_depth ev ≤ 10)%nat ∧ call_group ev ∉ call_result ev)
           run.2
  ∧ entered_groups group memberships = get_memberships group memberships 0
  ∧ (length (get_memberships group memberships 0)
     ≤ closure_bound (length memberships) 10)%nat
  ∧ Forall (fun g => g = group ∨ g ∈ memberships.*1)
           (get_memberships group memberships 0)
  ∧ (∀ my_groups group_rows,
       (length (get_groups my_groups memberships group_rows)
        ≤ length group_rows)%nat).
Proof.
  intros run. split; [by apply (traced_erase memberships 10)|].
  split; [by apply (traced_events memberships 10)|].
  split.
  { unfold entered_groups. rewrite (traced_entered memberships 10) by done.
    by apply (traced_erase memberships 10). }
  split; [by apply (expansion_length memberships 10)|].
  split; [by apply (expansion_elements memberships 10)|].
  intros. apply get_groups_length.
Qed.

(** C4 as stated fails: a group that is already in the result of the
    expansion is entered again.  On the cycle G1 ⊂ G2 ⊂ G1 the expansion of
    group 1 enters group 1 again at depths 2, 4, 6, 8 and 10 (the first time
    from the frame of group 2, whose own list is [2]), and only the depth
    limit stops it.  On the diamond 1 ⊂ 2 ⊂ 4, 1 ⊂ 3 ⊂ 4, which has no
    cycle, group 4 is entered twice. *)
Lemma expansion_enters_groups_again :
  let cycle := [(2, 1); (1, 2)] in
  let diamond := [(2, 1); (3, 1); (4, 2); (4, 3)] in
  entered_groups 1 cycle = [1; 2; 1; 2; 1; 2; 1; 2; 1; 2; 1]
  ∧ call_depth <$> (get_memberships_traced 1 cycle 0).2
    = [1; 2; 3; 4; 5; 6; 7; 8; 9; 10]%nat
  ∧ Call 2 1 [2] ∈ (get_memberships_traced 1 cycle 0).2
  ∧ ¬ NoDup (entered_groups 1 cycle)
  ∧ get_memberships 1 diamond 0 = [1; 2; 4; 3; 4]
  ∧ entered_groups 1 diamond = [1; 2; 4; 3; 4]
  ∧ ¬ NoDup (entered_groups 1 diamond).
Proof.
  intros cycle diamond.
  assert (entered_groups 1 cycle = [1; 2; 1; 2; 1; 2; 1; 2; 1; 2; 1]) as Hcycle
    by reflexivity.
  assert (entered_groups 1 diamond = [1; 2; 4; 3; 4]) as Hdiamond
    by reflexivity.
  split; [done|]. split; [reflexivity|].
  split; [vm_compute; set_solver|].
  split.
  { rewrite Hcycle. intros [Hin _]%NoDup_cons. apply Hin. set_solver. }
  split; [reflexivity|]. split; [done|].
  rewrite Hdiamond.
  intros [_ [_ [Hin _]%NoDup_cons]%NoDup_cons]%NoDup_cons.
  apply Hin. set_solver.
Qed.

(** One turn of the loop on ids that are equal or known to differ. *)
Lemma visit_skip expand group result grp sgrp :
  group ≠ sgrp → visit expand group result (grp, sgrp) = result.
Proof. intros Hne. unfold visit. by rewrite (proj2 (Z.eqb_neq _ _) Hne). Qed.

Lemma visit_seen expand group result grp :
  grp ∈ result → visit expand group result (grp, group) = result.
Proof.
  intros Hin. unfold visit, id_in.
  by rewrite Z.eqb_refl, bool_decide_eq_true_2.
Qed.

Lemma visit_new expand group result grp :
  grp ∉ result →
  visit expand group result (grp, group) = (result ++ expand grp)%list.
Proof.
  intros Hin. unfold visit, id_in.
  by rewrite Z.eqb_refl, bool_decide_eq_false_2.
Qed.

Lemma get_memberships_step group memberships depth :
  (depth < 10)%nat →
  get_memberships group memberships depth
  = fold_left
      (visit (fun grp => get_memberships grp memberships (S depth)) group)
      memberships [group].
Proof. intros. rewrite get_memberships_unfold. by case_decide. Qed.

Ltac decide_member := set_solver.

Ltac expand_closure :=
  repeat first
    [ rewrite get_memberships_step by lia; cbn [fold_left app]
    | match goal with
      | |- context [visit ?e ?g ?r (?grp, ?sgrp)] =>
          first
            [ rewrite (visit_skip e g r grp sgrp) by congruence
            | rewrite (visit_new e g r grp) by decide_member
            | rewrite (visit_seen e g r grp) by decide_member ]
      end ];
  cbn [app].

Lemma chain_expansion g1 g2 g3 subgroups :
  g1 ≠ g2 → g2 ≠ g3 → g1 ≠ g3 →
  subgroups ≡ₚ [(g2, g1); (g3, g2)] →
  get_memberships g1 subgroups 0 = [g1; g2; g3].
Proof.
  intros H12 H23 H13 Hperm. symmetry in Hperm.
  apply Permutation_length_2_inv in Hperm as [-> | ->];
    by expand_closure.
Qed.

(** C3.  For distinct groups G1, G2, G3, direct membership in G1 alone and
    the two edges G1 ⊂ G2 and G2 ⊂ G3 (rows [(G2, G1)] and [(G3, G2)], in
    either order), the expansion of G1 is G1, G2, G3, the id closure is
    that set, and the names returned are the trimmed names of the rows of
    the group table whose id is one of the three. *)
Theorem chain_closure (g1 g2 g3 : Z) (subgroups : list (Z * Z))
    (group_rows : list (Z * string)) :
  g1 ≠ g2 → g2 ≠ g3 → g1 ≠ g3 →
  subgroups ≡ₚ [(g2, g1); (g3, g2)] →
  get_memberships g1 subgroups 0 = [g1; g2; g3]
  ∧ (∀ g, g ∈ closure_ids [g1] subgroups ↔ g = g1 ∨ g = g2 ∨ g = g3)
  ∧ get_groups [g1] subgroups group_rows
    = (fun rec => strip (snd rec))
        <$> filter (fun rec => rec.1 = g1 ∨ rec.1 = g2 ∨ rec.1 = g3) group_rows.
Proof.
  intros H12 H23 H13 Hperm.
  pose proof (chain_expansion g1 g2 g3 subgroups H12 H23 H13 Hperm) as Hexp.
  assert (∀ g, g ∈ closure_ids [g1] subgroups ↔ g = g1 ∨ g = g2 ∨ g = g3)
    as Hids.
  { intros g. unfold closure_ids. simpl. rewrite Hexp. set_solver. }
  split; [done|]. split; [done|].
  rewrite get_groups_filter. f_equal. apply list_filter_iff. intros rec. apply Hids.
Qed.

Lemma chain_closure_witness :
  get_memberships 1 [(2, 1); (3, 2)] 0 = [1; 2; 3]
  ∧ get_groups [1] [(2, 1); (3, 2)]
      [(1, "users"); (2, " managers "); (3, "administrators"); (4, "guests")]
    = ["users"; "managers"; "administrators"].
Proof.
  pose proof (chain_closure 1 2 3 [(2, 1); (3, 2)]
                [(1, "users"); (2, " managers "); (3, "administrators");
                 (4, "guests")]
                ltac:(discriminate) ltac:(discriminate) ltac:(discriminate)
                ltac:(reflexivity))
    as (Hexp & _ & Hnames).
  split; [exact Hexp|exact Hnames].
Defined.

(** C8, as the code has it.  For every user, edge set and group table, the
    names returned are the trimmed names of the rows of the group table
    whose id is in the closure, in the order of those rows; they are
    distinct when the trimmed names of the table are. *)
Theorem names_follow_group_rows (my_groups : list Z) (subgroups : list (Z * Z))
    (group_rows : list (Z * string)) :
  get_groups my_groups subgroups group_rows
  = (fun rec => strip (snd rec))
      <$> filter (fun rec => rec.1 ∈ closure_ids my_groups subgroups) group_rows
  ∧ (NoDup ((fun rec => strip (snd rec)) <$> group_rows) →
     NoDup (get_groups my_groups subgroups group_rows)).
Proof.
  split; [apply get_groups_filter|].
  intros Hnames. rewrite get_groups_filter.
  eapply sublist_NoDup; [exact Hnames|].
  apply fmap_sublist, sublist_filter.
Qed.

Lemma names_follow_group_rows_witness :
  get_groups [2] [(1, 2)] [(1, "administrators"); (2, " managers ")]
  = ["administrators"; "managers"]
  ∧ NoDup (get_groups [2] [(1, 2)] [(1, "administrators"); (2, " managers ")])
  ∧ get_groups [1; 2] [] [(1, "staff"); (2, " staff")] = ["staff"; "staff"].
Proof.
  split; [|split].
  - exact (proj1 (names_follow_group_rows [2] [(1, 2)]
                    [(1, "administrators"); (2, " managers ")])).
  - apply (proj2 (names_follow_group_rows [2] [(1, 2)]
                    [(1, "administrators"); (2, " managers ")])).
    repeat constructor; set_solver.
  - exact (proj1 (names_follow_group_rows [1; 2] []
                    [(1, "staff"); (2, " staff")])).
Defined.

(** C8 as stated fails twice.  The user is a member of group 2, a subgroup
    of group 1: the expansion meets 2 before 1, the names come back in the
    order of the group table.  And two rows whose names differ only in
    surrounding whitespace give the same name twice. *)
Lemma names_not_in_discovery_order :
  get_memberships 2 [(1, 2)] 0 = [2; 1]
  ∧ names_in_discovery_order [2] [(1, 2)]
      [(1, "administrators"); (2, "managers")]
    = ["managers"; "administrators"]
  ∧ get_groups [2] [(1, 2)] [(1, "administrators"); (2, "managers")]
    = ["administrators"; "managers"]
  ∧ get_groups [2] [(1, 2)] [(1, "administrators"); (2, "managers")]
    ≠ names_in_discovery_order [2] [(1, 2)]
        [(1, "administrators"); (2, "managers")]
  ∧ get_groups [1; 2] [] [(1, "staff"); (2, " staff")] = ["staff"; "staff"]
  ∧ ¬ NoDup (get_groups [1; 2] [] [(1, "staff"); (2, " staff")]).
Proof.
  repeat split; try reflexivity; try discriminate.
  intros Hdup. apply NoDup_cons in Hdup as [Hin _]. apply Hin. by left.
Qed.

(** On the cyclic edge set G1 ⊂ G2 ⊂ G1 the expansion runs down to depth
    10 and returns; the two groups alternate in the list. *)
Example cyclic_expansion :
  get_memberships 1 [(2, 1); (1, 2)] 0 = [1; 2; 1; 2; 1; 2; 1; 2; 1; 2; 1]
  ∧ get_groups [1] [(2, 1); (1, 2)] [(1, "staff"); (2, "managers")]
    = ["staff"; "managers"].
Proof. split; reflexivity. Qed.

End Groups.

(** * Further properties of the code *)

(** ** Translation: failures, and agreement between the backends *)

Module TranslateErrors.

Import Translate.

Lemma format_too_few n ps :
  forallb wf_piece ps = true →
  forallb (fun p => negb (is_named p)) ps = true →
  ∀ idx, (idx ≤ n)%nat → (n < idx + count_positional ps)%nat →
  format_from Literal (statement_text ps) (FmtTuple (qmarks n)) idx
  = Raise (TypeError "not enough arguments for format string").
Proof.
  induction ps as [|p ps IH]; intros Hwf Hps idx Hle Hcount.
  - simpl in Hcount. lia.
  - simpl in Hwf, Hps, Hcount.
    apply andb_prop in Hwf as [Hp Hwf]. apply andb_prop in Hps as [Hnamed Hps].
    specialize (IH Hwf Hps).
    destruct p as [c| | |key]; cbn [statement_text].
    + simpl in Hp, Hcount. apply negb_true_iff in Hp.
      cbn [format_from]. rewrite Hp. by rewrite (IH idx).
    + simpl in Hcount. scan_step. by rewrite (IH idx).
    + simpl in Hcount. scan_step.
      destruct (decide (idx < n)%nat) as [Hlt|Hge].
      * rewrite qmarks_lookup by done. by rewrite (IH (S idx)) by lia.
      * unfold qmarks.
        by rewrite (proj1 (lookup_replicate_None n "?" idx)) by lia.
    + done.
Qed.

Lemma format_too_many n ps :
  forallb wf_piece ps = true →
  forallb (fun p => negb (is_named p)) ps = true →
  ∀ idx, (idx + count_positional ps < n)%nat →
  format_from Literal (statement_text ps) (FmtTuple (qmarks n)) idx
  = Raise (TypeError "not all arguments converted during string formatting").
Proof.
  induction ps as [|p ps IH]; intros Hwf Hps idx Hcount.
  - simpl in *. unfold qmarks. rewrite length_replicate.
    destruct (Nat.ltb_spec idx n); [done|lia].
  - simpl in Hwf, Hps, Hcount.
    apply andb_prop in Hwf as [Hp Hwf]. apply andb_prop in Hps as [Hnamed Hps].
    specialize (IH Hwf Hps).
    destruct p as [c| | |key]; cbn [statement_text].
    + simpl in Hp, Hcount. apply negb_true_iff in Hp.
      cbn [format_from]. rewrite Hp. by rewrite (IH idx).
    + simpl in Hcount. scan_step. by rewrite (IH idx).
    + simpl in Hcount. scan_step.
      rewrite qmarks_lookup by lia. by rewrite (IH (S idx)) by lia.
    + done.
Qed.

(** X1.  On a qmark backend, when the arguments are not a single non-empty
    mapping and the statement has only [%s] placeholders, a number of [%s]
    different from the number of markers makes [translate] raise
    [TypeError]: "not enough arguments" when the statement has more of
    them, "not all arguments converted" when it has fewer. *)
Theorem placeholder_count_mismatch (ps : list piece) (args : list pyvalue) :
  forallb wf_piece ps = true →
  forallb (fun p => negb (is_named p)) ps = true →
  single_mapping args = false →
  count_positional ps ≠ marker_count args →
  translate qmark (statement_text ps) args
  = Raise (TypeError
             (if (marker_count args <? count_positional ps)%nat
              then "not enough arguments for format string"
              else "not all arguments converted during string formatting")).
Proof.
  intros Hwf Hnamed Hsingle Hcount.
  assert (∀ n, n = marker_count args →
            format_from Literal (statement_text ps) (FmtTuple (qmarks n)) 0
            = Raise (TypeError
                       (if (marker_count args <? count_positional ps)%nat
                        then "not enough arguments for format string"
                        else "not all arguments converted during string formatting")))
    as Hfmt.
  { intros n ->. destruct (Nat.ltb_spec (marker_count args) (count_positional ps)).
    - apply format_too_few; [done..|lia|lia].
    - apply format_too_many; [done..|]. simpl. lia. }
  destruct args as [|arg0 rest]; unfold translate, py_format.
  - cbn [length]. by rewrite (Hfmt 0%nat eq_refl).
  - rewrite not_single_mapping by done. simpl andb.
    unfold marker_count in Hfmt |- *.
    destruct (issequenceform arg0); by rewrite (Hfmt _ eq_refl).
Qed.

Lemma placeholder_count_mismatch_witness :
  translate qmark "values (%s, %s)" [PStr "Joe"]
  = Raise (TypeError "not enough arguments for format string")
  ∧ translate qmark "values (%s)" [PStr "Joe"; PInt 32]
    = Raise (TypeError "not all arguments converted during string formatting").
Proof.
  split.
  - exact (placeholder_count_mismatch
             (text_pieces "values (" ++ [Positional] ++ text_pieces ", "
                ++ [Positional] ++ text_pieces ")")
             [PStr "Joe"] eq_refl eq_refl eq_refl ltac:(discriminate)).
  - exact (placeholder_count_mismatch
             (text_pieces "values (" ++ [Positional] ++ text_pieces ")")
             [PStr "Joe"; PInt 32] eq_refl eq_refl eq_refl ltac:(discriminate)).
Defined.

Lemma format_missing_key entries ps key :
  forallb wf_piece ps = true →
  forallb (fun p => negb (is_positional p)) ps = true →
  first_missing_key entries ps = Some key →
  ∀ idx,
    format_from Literal (statement_text ps)
      (FmtDict (named_placeholders entries)) idx
    = Raise (KeyError key).
Proof.
  induction ps as [|p ps IH]; intros Hwf Hps Hmiss idx; [done|].
  simpl in Hwf, Hps.
  apply andb_prop in Hwf as [Hp Hwf]. apply andb_prop in Hps as [Hpos Hps].
  destruct p as [c| | |k]; cbn [statement_text]; simpl in Hmiss.
  - simpl in Hp. apply negb_true_iff in Hp.
    cbn [format_from]. rewrite Hp. by rewrite IH.
  - scan_step. by rewrite IH.
  - done.
  - simpl in Hp. scan_step. rewrite scan_key by done.
    rewrite append_nil_l, named_placeholders_get.
    destruct (dict_get entries k) as [v|]; [|by simplify_eq].
    scan_step. by rewrite IH.
Qed.

(** X2.  On a qmark backend, with a single non-empty mapping as argument, a
    statement of named placeholders one of which has a key that the mapping
    lacks makes [translate] raise [KeyError] for the first such key. *)
Theorem missing_key_is_key_error (ps : list piece)
    (entry : string * pyvalue) (entries : list (string * pyvalue))
    (key : string) :
  forallb wf_piece ps = true →
  forallb (fun p => negb (is_positional p)) ps = true →
  first_missing_key (entry :: entries) ps = Some key →
  translate qmark (statement_text ps) [PDict (entry :: entries)]
  = Raise (KeyError key).
Proof.
  intros Hwf Hpos Hmiss. unfold translate, py_format.
  cbn [length Nat.eqb has_items andb]. simpl truthy. cbv iota.
  by rewrite (format_missing_key _ _ key).
Qed.

Lemma missing_key_is_key_error_witness :
  translate qmark "select * from person where id=%(id)s and age=%(age)s"
    [PDict [("id", PInt 1)]]
  = Raise (KeyError "age").
Proof.
  exact (missing_key_is_key_error
           (text_pieces "select * from person where id=" ++ [Named "id"]
              ++ text_pieces " and age=" ++ [Named "age"])
           ("id", PInt 1) [] "age" eq_refl eq_refl eq_refl).
Defined.

(** X3.  Whenever the translation for a qmark backend returns, the
    translation of the same call for a pyformat backend returns the
    statement as written with the very same parameter set; and the
    translation for a pyformat backend always returns. *)
Theorem backends_get_the_same_parameters (command : string)
    (args : list pyvalue) (cmd : string) (params : pyvalue) :
  translate qmark command args = Return (cmd, params) →
  translate pyformat command args = Return (command, params)
  ∧ (∀ command' args', ∃ params',
       translate pyformat command' args' = Return (command', params')).
Proof.
  intros Hq. split; [|intros; unfold translate; eauto].
  unfold translate in *.
  destruct args as [|arg0 rest].
  - destruct (py_format command _); simpl in Hq; by simplify_eq.
  - destruct (Nat.eqb (length (arg0 :: rest)) 1 && has_items arg0 && truthy arg0).
    + destruct arg0; try done.
      destruct (py_format command _); simpl in Hq; by simplify_eq.
    + destruct ((1 <=? length (arg0 :: rest))%nat && issequenceform arg0);
        destruct (py_format command _); simpl in Hq; by simplify_eq.
Qed.

Lemma backends_get_the_same_parameters_witness :
  translate pyformat "select * from t where id=%(id)s" [PDict [("id", PInt 5)]]
  = Return ("select * from t where id=%(id)s", PDict [("id", PInt 5)]).
Proof.
  exact (proj1 (backends_get_the_same_parameters
                  "select * from t where id=%(id)s" [PDict [("id", PInt 5)]]
                  "select * from t where id=:id" (PDict [("id", PInt 5)])
                  eq_refl)).
Defined.

End TranslateErrors.

(** ** The executor's state across calls *)

Module ExecutorState.

Import Executor.

Lemma same_configuration_refl self : same_configuration self self.
Proof. by repeat split. Qed.

Lemma same_configuration_trans self1 self2 self3 :
  same_configuration self1 self2 → same_configuration self2 self3 →
  same_configuration self1 self3.
Proof.
  intros (? & ? & ? & ? & ? & Hc1) (? & ? & ? & ? & ? & Hc2).
  repeat split; try congruence. intros conn Hconn. by apply Hc2, Hc1.
Qed.

Lemma _execute_configuration self heap cursor method command args start stop :
  same_configuration self
    (self_after (_execute self heap cursor method command args start stop)).
Proof.
  unfold _execute, trace, self_after.
  destruct (translate _ _ _) as [[cmd params]|e|]; try apply same_configuration_refl.
  destruct (heap !! cursor) as [cs|]; [|apply same_configuration_refl].
  destruct (method cmd params cs) as [error|cs'].
  - destruct (debug self) eqn:Hd; simpl; rewrite ?Hd; by repeat split.
  - destruct (has_description cs'), (debug self) eqn:Hd; simpl; rewrite ?Hd;
      by repeat split.
Qed.

Lemma get_connection_configuration self :
  same_configuration self (get_connection self).1.
Proof.
  unfold get_connection. destruct (connection self) eqn:Hconn.
  - apply same_configuration_refl.
  - destruct (factory self _ _); simpl; repeat split; try done;
      intros conn Hc; congruence.
Qed.

Lemma new_cursor_configuration self heap :
  same_configuration self (self_after (new_cursor self heap)).
Proof.
  unfold new_cursor. pose proof (get_connection_configuration self) as Hcfg.
  destruct (get_connection self) as [self' [c| |]]; try done.
  destruct (conn_cursor c); done.
Qed.

Lemma do_call_unfold self heap c :
  do_call self heap c
  = match new_cursor self heap with
    | (self, heap, Return (cursor, conn)) =>
        _execute self heap cursor
          (if dc_many c then conn_executemany conn else conn_execute conn)
          (dc_command c) (dc_args c) (dc_start c) (dc_stop c)
    | (self, heap, Raise e) => (self, heap, Raise e)
    | (self, heap, Unmodelled) => (self, heap, Unmodelled)
    end.
Proof.
  unfold do_call, execute, execute_many.
  destruct (dc_many c), (new_cursor self heap) as [[self' heap'] [[ref conn]|e|]];
    done.
Qed.

Lemma do_call_configuration self heap c :
  same_configuration self (self_after (do_call self heap c)).
Proof.
  rewrite do_call_unfold.
  pose proof (new_cursor_configuration self heap) as Hnew.
  destruct (new_cursor self heap) as [[self1 heap1] [[ref conn]|e|]]; try done.
  eapply same_configuration_trans; [exact Hnew|].
  apply _execute_configuration.
Qed.

(** X4.  A call to [execute] or [execute_many], whatever it returns or
    raises, leaves [paramstyle], [debug], the factory and its arguments as
    they were, and never drops or replaces a connection that was already
    made. *)
Theorem calls_keep_configuration (self : Database) (heap : cursors)
    (c : db_call) :
  let self' := self_after (do_call self heap c) in
  paramstyle self' = paramstyle self
  ∧ debug self' = debug self
  ∧ factory self' = factory self
  ∧ init_args self' = init_args self
  ∧ init_keywords self' = init_keywords self
  ∧ (∀ conn, connection self = Some conn → connection self' = Some conn).
Proof.
  intros self'. change (same_configuration self self').
  apply do_call_configuration.
Qed.

(** X5.  When the executor is not connected and the driver's connect
    raises, [execute] and [execute_many] raise that driver exception as it
    is, not a [DatabaseException]; the executor stays unconnected and
    nothing is logged, even with [debug] on. *)
Theorem connection_failure_escapes (self : Database) (heap : cursors)
    (c : db_call) (error : driver_error) :
  connection self = None →
  factory self (init_args self) (init_keywords self) = inl error →
  do_call self heap c = (self, heap, Raise (BackendException error)).
Proof.
  intros Hconn Hfactory. rewrite do_call_unfold.
  unfold new_cursor, get_connection. by rewrite Hconn, Hfactory.
Qed.

Lemma connection_failure_escapes_witness :
  let db := unreachable_db in
  do_call db ∅ (DbCall false "select 1" [] 0 1)
  = (db, ∅,
     Raise (BackendException
              (DriverError "OperationalError" "cannot connect to server"))).
Proof.
  intros db.
  exact (connection_failure_escapes db ∅ (DbCall false "select 1" [] 0 1)
           (DriverError "OperationalError" "cannot connect to server")
           eq_refl eq_refl).
Defined.

Lemma get_connection_counters self :
  rowcount (get_connection self).1 = rowcount self
  ∧ lastrowid (get_connection self).1 = lastrowid self.
Proof.
  unfold get_connection. destruct (connection self); [done|].
  destruct (factory self _ _); done.
Qed.

(** X6.  [execute] and [execute_many] update the counters only when the
    driver has run the statement: a statement that the driver refuses
    leaves [rowcount] and [lastrowid] as they were; one that it runs sets
    [rowcount] to the cursor's, and sets [lastrowid] to the cursor's only
    when there is no row output: a query keeps the [lastrowid] of the
    insert before it. *)
Theorem counters_follow_the_driver (self : Database) (heap : cursors)
    (c : db_call) (conn : connection_t) (cs0 : cursor_state)
    (cmd : string) (params : pyvalue) :
  (get_connection self).2 = Return conn →
  conn_cursor conn = inr cs0 →
  translate (paramstyle self) (dc_command c) (dc_args c) = Return (cmd, params) →
  let self' := self_after (do_call self heap c) in
  let method := if dc_many c then conn_executemany conn else conn_execute conn in
  match method cmd params cs0 with
  | inl _ => rowcount self' = rowcount self ∧ lastrowid self' = lastrowid self
  | inr cs =>
      rowcount self' = Some (cur_rowcount cs)
      ∧ lastrowid self'
        = if has_description cs then lastrowid self else cur_lastrowid cs
  end.
Proof.
  intros Hconn Hcur Ht self' method.
  pose proof (get_connection_fields self) as (Hstyle & _ & _).
  pose proof (get_connection_counters self) as [Hrc Hid].
  unfold self'. rewrite do_call_unfold, (new_cursor_ok _ _ conn cs0) by done.
  fold method. rewrite <- Hstyle in Ht.
  destruct (method cmd params cs0) as [error|cs] eqn:Hm.
  - erewrite _execute_driver_error; [|apply lookup_insert_eq|done..].
    unfold self_after, trace. simpl. by destruct (debug _).
  - erewrite _execute_driver_ok; [|apply lookup_insert_eq|done..].
    unfold self_after, trace. simpl.
    destruct (has_description cs), (debug _); done.
Qed.

Lemma counters_follow_the_driver_witness :
  let inserted := set_lastrowid (sample_db select_rows) (Some 4) in
  let db := self_after (do_call inserted ∅
                          (DbCall false "select * from person" [] 0 1)) in
  rowcount db = Some (-1) ∧ lastrowid db = Some 4.
Proof.
  intros inserted db.
  exact (counters_follow_the_driver inserted ∅
           (DbCall false "select * from person" [] 0 1)
           (sample_connection select_rows) fresh_cursor
           "select * from person" (PTuple []) eq_refl eq_refl eq_refl).
Defined.

Ltac no_new_line :=
  exists []; rewrite app_nil_r; split; [done|split; [simpl; lia|done]].

Lemma _execute_log self heap cursor method command args start stop :
  ∃ suffix,
    log (self_after (_execute self heap cursor method command args start stop))
    = (log self ++ suffix)%list
    ∧ (length suffix ≤ 1)%nat
    ∧ (debug self = false → suffix = []).
Proof.
  unfold _execute, self_after.
  destruct (translate _ _ _) as [[cmd params]|e|]; [|no_new_line..].
  destruct (heap !! cursor) as [cs|]; [|no_new_line].
  destruct (method cmd params cs) as [error|cs']; simpl.
  - rewrite trace_log. eexists. split; [done|].
    destruct (debug self); simpl; split; (lia || done).
  - destruct (has_description cs'); simpl; rewrite trace_log; simpl;
      (eexists; split; [done|]);
      destruct (debug self); simpl; split; (lia || done).
Qed.

Lemma do_call_log self heap c :
  ∃ suffix,
    log (self_after (do_call self heap c)) = (log self ++ suffix)%list
    ∧ (length suffix ≤ 1)%nat
    ∧ (debug self = false → suffix = []).
Proof.
  rewrite do_call_unfold.
  pose proof (new_cursor_log self heap) as Hlog.
  pose proof (new_cursor_configuration self heap) as (_ & Hdebug & _).
  destruct (new_cursor self heap) as [[self1 heap1] [[ref conn]|e|]];
    unfold self_after in *; simpl in *; [|no_new_line..].
  rewrite <- Hlog, <- Hdebug. apply _execute_log.
Qed.

(** X7.  Over any sequence of [execute] and [execute_many] calls the log
    only grows at its end: the lines it had are kept, at most one line is
    added per call, and none when [debug] is off. *)
Theorem log_grows_by_one_line_a_call (calls : list db_call) (self : Database)
    (heap : cursors) :
  ∃ suffix,
    log (run_calls self heap calls).1 = (log self ++ suffix)%list
    ∧ (length suffix ≤ length calls)%nat
    ∧ (debug self = false → suffix = []).
Proof.
  revert self heap. induction calls as [|c calls IH]; intros self heap; simpl.
  - no_new_line.
  - destruct (do_call_log self heap c) as (s1 & Hs1 & Hlen1 & Hoff1).
    pose proof (do_call_configuration self heap c) as (_ & Hdebug & _).
    destruct (IH (self_after (do_call self heap c))
                 (heap_after (do_call self heap c)))
      as (s2 & Hs2 & Hlen2 & Hoff2).
    exists (s1 ++ s2)%list. rewrite Hs2, Hs1, <- app_assoc.
    split; [done|]. split; [rewrite length_app; lia|].
    intros Hoff. rewrite Hoff1, Hoff2 by congruence. done.
Qed.

Lemma report_empty render self : report render self = "" ↔ log self = [].
Proof.
  unfold report. destruct (log self); [done|]. split; discriminate.
Qed.

Lemma run_calls_log_debug_off calls :
  ∀ self heap,
    debug self = false → log (run_calls self heap calls).1 = log self.
Proof.
  induction calls as [|c calls IH]; intros self heap Hoff; simpl; [done|].
  destruct (do_call_log self heap c) as (s1 & Hs1 & _ & Hoff1).
  pose proof (do_call_configuration self heap c) as (_ & Hdebug & _).
  rewrite IH by congruence. rewrite Hs1, Hoff1 by done. apply app_nil_r.
Qed.

(** X8.  [report] returns the empty text exactly when the log is empty; an
    executor whose log is empty and whose [debug] is off, as a new one is,
    still reports the empty text after any sequence of calls. *)
Theorem report_is_empty_without_debug (render : trace_line → string)
    (self : Database) (heap : cursors) (calls : list db_call) :
  (report render self = "" ↔ log self = [])
  ∧ (debug self = false → log self = [] →
     report render (run_calls self heap calls).1 = "").
Proof.
  split; [apply report_empty|].
  intros Hoff Hlog. apply report_empty.
  by rewrite run_calls_log_debug_off.
Qed.

(** X10.  When the driver runs a statement with row output, one full
    iteration of the [Result] that [execute] returns yields the rows of the
    driver's cursor, all of them and in their order. *)
Theorem execute_then_iterate (self : Database) (heap : cursors)
    (command : string) (args : list pyvalue) (start stop : Q)
    (conn : connection_t) (cs0 : cursor_state) (cmd : string)
    (params : pyvalue) (cs : cursor_state) :
  (get_connection self).2 = Return conn →
  conn_cursor conn = inr cs0 →
  translate (paramstyle self) command args = Return (cmd, params) →
  conn_execute conn cmd params cs0 = inr cs →
  has_description cs = true →
  let call := execute self heap command args start stop in
  ∃ r heap',
    outcome_of call = Return (ResultValue r)
    ∧ Result_iter r (heap_after call) = Some (cur_pending cs, heap').
Proof.
  intros Hconn Hcur Ht Hm Hdesc call.
  pose proof (get_connection_fields self) as (Hstyle & _ & _).
  unfold call. rewrite (execute_unfold _ _ _ _ _ _ conn cs0) by done.
  erewrite _execute_driver_ok;
    [|apply lookup_insert_eq|by rewrite Hstyle|done].
  simpl. rewrite Hdesc. unfold outcome_of, heap_after. simpl.
  eexists _, _. split; [done|].
  unfold Result_iter. simpl. rewrite lookup_insert_eq.
  destruct (Results.fetch_loop_all_rows ARRAY_SIZE cs) as [-> _];
    [unfold ARRAY_SIZE; lia|].
  done.
Qed.

Lemma execute_then_iterate_witness :
  let call := execute (sample_db select_rows) ∅ "select * from person" [] 0 1 in
  ∃ r heap',
    outcome_of call = Return (ResultValue r)
    ∧ Result_iter r (heap_after call)
      = Some ([[PInt 1; PStr "Joe"]; [PInt 2; PStr "Ann"]], heap').
Proof.
  exact (execute_then_iterate (sample_db select_rows) ∅
           "select * from person" [] 0 1 (sample_connection select_rows)
           fresh_cursor "select * from person" (PTuple [])
           (Cursor (Some ["id"; "name"]) (-1) None
              [[PInt 1; PStr "Joe"]; [PInt 2; PStr "Ann"]])
           eq_refl eq_refl eq_refl eq_refl eq_refl).
Defined.

End ExecutorState.

(** ** [Result]: batches, [first] and [len] *)

Module ResultsMore.

Import Results.



(** X12.  A [Result] whose batch size is 0 leaves the size of a batch to
    the driver: [fetchmany(0)] returns every remaining row on sqlite3 and
    [arraysize] rows on pymysql.  Unless that [arraysize] is 0, one full
    iteration still yields every row the cursor holds, in order, and leaves
    the cursor with no row. *)
Theorem zero_batch_falls_back_to_the_driver (self : Result) (heap : cursors)
    (cs : cursor_state) :
  array_size self = 0%nat →
  cur_arraysize cs ≠ Some 0%nat →
  heap !! cursor self = Some cs →
  ∃ cs',
    Result_iter self heap = Some (cur_pending cs, <[cursor self := cs']> heap)
    ∧ cur_pending cs' = [].
Proof.
  intros Hsize Hdriver Hcs. unfold Result_iter. rewrite Hcs.
  destruct (fetch_loop_batches (array_size self) cs (or_intror Hdriver))
    as [Hrows Hleft].
  exists (fetch_loop (array_size self) cs).2. by rewrite Hrows.
Qed.

Lemma zero_batch_falls_back_to_the_driver_witness :
  let rows := [[PInt 1]; [PInt 2]; [PInt 3]] in
  let lite := Cursor (Some ["id"]) (-1) None rows in
  let my := mkCursor (Some ["id"]) 3 None rows (Some 1%nat) in
  (∃ cs',
     Result_iter (mkResult 0 0) {[ 0%nat := lite ]}
     = Some (rows, <[0%nat := cs']> {[ 0%nat := lite ]})
     ∧ cur_pending cs' = [])
  ∧ (∃ cs',
       Result_iter (mkResult 0 0) {[ 0%nat := my ]}
       = Some (rows, <[0%nat := cs']> {[ 0%nat := my ]})
       ∧ cur_pending cs' = []).
Proof.
  intros rows lite my. split.
  - apply (zero_batch_falls_back_to_the_driver (mkResult 0 0)
             {[ 0%nat := lite ]} lite eq_refl); [done|].
    apply lookup_singleton_eq.
  - apply (zero_batch_falls_back_to_the_driver (mkResult 0 0)
             {[ 0%nat := my ]} my eq_refl); [done|].
    apply lookup_singleton_eq.
Defined.





(** X14.  [len] of a [Result] is the cursor's [rowcount] when that is
    positive and 0 otherwise: it is never negative, and it is 0 for the -1
    that a driver gives when it does not know the count. *)
Theorem len_is_rowcount_or_zero (self : Result) (heap : cursors)
    (cs : cursor_state) :
  heap !! cursor self = Some cs →
  Result_len self heap = Some (Z.max 0 (cur_rowcount cs)).
Proof.
  intros Hcs. unfold Result_len. rewrite Hcs. simpl. f_equal.
  destruct (Z.ltb_spec 0 (cur_rowcount cs)), (Z.eqb_spec (cur_rowcount cs) 0);
    simpl; lia.
Qed.

Lemma len_is_rowcount_or_zero_witness :
  Result_len (mkResult 0 ARRAY_SIZE)
    {[ 0%nat := Cursor (Some ["id"]) (-1) None [[PInt 1]] ]}
  = Some 0.
Proof.
  apply (len_is_rowcount_or_zero (mkResult 0 ARRAY_SIZE)
           {[ 0%nat := Cursor (Some ["id"]) (-1) None [[PInt 1]] ]}
           (Cursor (Some ["id"]) (-1) None [[PInt 1]])).
  apply lookup_singleton_eq.
Defined.

End ResultsMore.

(** ** Constructors and [use]: the keywords handed to the driver *)

Module Keywords.

Lemma dict_get_set_eq {V} (entries : list (string * V)) key value :
  dict_get (dict_set entries key value) key = Some value.
Proof.
  induction entries as [|[k v] entries IH]; simpl.
  - by rewrite String.eqb_refl.
  - destruct (String.eqb_spec k key) as [->|Hne]; simpl.
    + by rewrite String.eqb_refl.
    + by rewrite (proj2 (String.eqb_neq k key)).
Qed.

Lemma dict_get_set_ne {V} (entries : list (string * V)) key value key' :
  key' ≠ key →
  dict_get (dict_set entries key value) key' = dict_get entries key'.
Proof.
  intros Hne. induction entries as [|[k v] entries IH]; simpl.
  - by rewrite (proj2 (String.eqb_neq key key')).
  - destruct (String.eqb_spec k key) as [->|Hk]; simpl; [|by rewrite IH].
    by rewrite (proj2 (String.eqb_neq key key')).
Qed.

Lemma dict_set_key_elem {V} (entries : list (string * V)) key value k :
  k ∈ (dict_set entries key value).*1 → k = key ∨ k ∈ entries.*1.
Proof.
  induction entries as [|[k0 v0] entries IH]; simpl.
  - rewrite list_elem_of_singleton. auto.
  - destruct (String.eqb_spec k0 key) as [->|Hne]; simpl;
      rewrite !elem_of_cons; intros [->|Hin]; auto.
    destruct (IH Hin); auto.
Qed.

Lemma dict_set_keys {V} (entries : list (string * V)) key value :
  NoDup entries.*1 → NoDup (dict_set entries key value).*1.
Proof.
  induction entries as [|[k v] entries IH]; simpl; intros Hnodup.
  - apply NoDup_singleton.
  - apply NoDup_cons in Hnodup as [Hk Hnodup].
    destruct (String.eqb_spec k key) as [->|Hne]; simpl.
    + by apply NoDup_cons.
    + apply NoDup_cons. split; [|by apply IH].
      intros Hin. by destruct (dict_set_key_elem _ _ _ _ Hin).
Qed.

(** X15.  A call of [Sqlite3Database] or [MySQLDatabase] with a keyword
    named [self] or [factory] raises [TypeError].  With any other keywords
    it returns an executor that has not connected and that will hand the
    driver the caller's positional arguments and keywords, except that
    [detect_types] (for sqlite3) and [charset] (for mysql, always ['utf8'])
    are set by the constructor, over a value the caller may have given; the
    keys stay distinct. *)
Theorem constructors_force_their_keyword (connect : factory_t)
    (parse_decltypes : Z) (args : list pyvalue)
    (kwargs : list (string * pyvalue)) :
  (keywords_bind kwargs = true →
   ∃ lite my,
     Sqlite3Database connect parse_decltypes args kwargs = Return lite
     ∧ MySQLDatabase connect args kwargs = Return my
     ∧ (connection lite = None ∧ init_args lite = args
        ∧ dict_get (init_keywords lite) "detect_types"
          = Some (PInt parse_decltypes)
        ∧ (∀ key, key ≠ "detect_types" →
             dict_get (init_keywords lite) key = dict_get kwargs key)
        ∧ (NoDup kwargs.*1 → NoDup (init_keywords lite).*1))
     ∧ (connection my = None ∧ init_args my = args
        ∧ dict_get (init_keywords my) "charset" = Some (PStr "utf8")
        ∧ (∀ key, key ≠ "charset" →
             dict_get (init_keywords my) key = dict_get kwargs key)
        ∧ (NoDup kwargs.*1 → NoDup (init_keywords my).*1)))
  ∧ (keywords_bind kwargs = false →
     ∃ msg,
       Sqlite3Database connect parse_decltypes args kwargs
       = Raise (TypeError msg)
       ∧ MySQLDatabase connect args kwargs = Raise (TypeError msg)).
Proof.
  rewrite Backend.Sqlite3Database_call, Backend.MySQLDatabase_call.
  split; intros ->.
  - eexists _, _. split; [done|]. split; [done|].
    unfold Database_init. simpl. repeat split;
      auto using @dict_get_set_eq, @dict_get_set_ne, @dict_set_keys.
  - unfold multiple_values. eauto.
Qed.

Lemma constructors_force_their_keyword_witness :
  let connect := connect_to (sample_connection select_rows) in
  (∃ lite,
     Sqlite3Database connect 1 [PStr ":memory:"] [("detect_types", PInt 0)]
     = Return lite
     ∧ dict_get (init_keywords lite) "detect_types" = Some (PInt 1))
  ∧ (∃ msg,
       MySQLDatabase connect [] [("host", PStr "database"); ("self", PNone)]
       = Raise (TypeError msg)).
Proof.
  intros connect. split.
  - destruct (proj1 (constructors_force_their_keyword connect 1
                       [PStr ":memory:"] [("detect_types", PInt 0)]) eq_refl)
      as (lite & my & Hlite & _ & (_ & _ & Hkey & _) & _).
    by exists lite.
  - destruct (proj2 (constructors_force_their_keyword connect 1 []
                       [("host", PStr "database"); ("self", PNone)]) eq_refl)
      as (msg & _ & Hmy).
    by exists msg.
Defined.

(** X16.  [use] makes a new executor for another database of the same
    server: it has the factory and the arguments of [self], its keywords
    with [db] set to the name, no connection, [debug] off and an empty log.
    It is a plain [Database]: its statements are passed to the driver as
    written, also when [self] is a qmark backend. *)
Theorem use_makes_an_unconnected_pyformat_executor (self : Database)
    (name : string) :
  let db := use self name in
  connection db = None ∧ debug db = false ∧ log db = []
  ∧ rowcount db = None ∧ lastrowid db = None
  ∧ factory db = factory self ∧ init_args db = init_args self
  ∧ dict_get (init_keywords db) "db" = Some (PStr name)
  ∧ (∀ key, key ≠ "db" →
       dict_get (init_keywords db) key = dict_get (init_keywords self) key)
  ∧ (∀ command args, ∃ params,
       translate (paramstyle db) command args = Return (command, params)).
Proof.
  intros db. unfold db, use, Database_init. simpl.
  repeat split; auto using @dict_get_set_eq, @dict_get_set_ne.
  intros command args. eauto.
Qed.

End Keywords.

(** ** Group closure: what is in it and what is not *)

Module Closure.

Import Groups.

Section Loop.
Variables (memberships : list (Z * Z)) (group : Z).

Lemma fold_visit_guarded (Q : Z → Prop) expand edges result :
  (∀ grp g, (grp, group) ∈ edges → g ∈ expand grp → Q g) →
  Forall Q result →
  Forall Q (fold_left (visit expand group) edges result).
Proof.
  revert result.
  induction edges as [|[grp sgrp] edges IH]; intros result Hexp Hres; [done|].
  simpl. apply IH.
  - intros grp' g Hin. apply Hexp. by right.
  - unfold visit. destruct (Z.eqb_spec group sgrp) as [<-|]; [|done].
    destruct (negb (id_in grp result)); [|done].
    apply Forall_app. split; [done|].
    apply Forall_forall. intros g Hg. apply (Hexp grp); [left|done].
Qed.

Lemma fold_visit_mono expand edges result x :
  x ∈ result → x ∈ fold_left (visit expand group) edges result.
Proof.
  revert result. induction edges as [|[grp sgrp] edges IH]; intros result Hx;
    [done|].
  simpl. apply IH. unfold visit.
  destruct ((group =? sgrp) && negb (id_in grp result)); [|done].
  apply elem_of_app. by left.
Qed.

Lemma fold_visit_parent expand edges result grp :
  (∀ g, g ∈ expand g) →
  (grp, group) ∈ edges →
  grp ∈ fold_left (visit expand group) edges result.
Proof.
  intros Hself. revert result.
  induction edges as [|[grp' sgrp] edges IH]; intros result Hin.
  - by apply elem_of_nil in Hin.
  - simpl. apply elem_of_cons in Hin as [Heq|Hin]; [|by apply IH].
    injection Heq as <- <-. apply fold_visit_mono.
    rewrite Z.eqb_refl. unfold id_in. case_bool_decide; simpl; [done|].
    apply elem_of_app. right. apply Hself.
Qed.

End Loop.

Section Expansion.
Variable memberships : list (Z * Z).

Lemma expansion_sound levels :
  ∀ depth group, (10 - depth = levels)%nat →
    Forall (rtc (subgroup_of memberships) group)
           (get_memberships group memberships depth).
Proof.
  induction levels as [|levels IH]; intros depth group Hlevels;
    rewrite get_memberships_unfold; case_decide; try lia;
    [by repeat constructor|].
  apply fold_visit_guarded; [|by repeat constructor].
  intros grp g Hedge Hg.
  apply (rtc_l _ _ grp); [exact Hedge|].
  specialize (IH (S depth) grp ltac:(lia)).
  rewrite Forall_forall in IH. by apply IH.
Qed.

Lemma expansion_self group depth :
  group ∈ get_memberships group memberships depth.
Proof.
  rewrite get_memberships_unfold. case_decide; [|by left].
  apply fold_visit_mono. by left.
Qed.

Lemma expansion_parent group grp depth :
  (depth < 10)%nat → (grp, group) ∈ memberships →
  grp ∈ get_memberships group memberships depth.
Proof.
  intros Hdepth Hedge. rewrite get_memberships_step by done.
  apply fold_visit_parent; [|done]. intros g. apply expansion_self.
Qed.

Lemma memberships_fold (my_groups : list Z) :
  ∀ acc x,
    x ∈ fold_left (fun acc group =>
                     (acc ++ get_memberships group memberships 0)%list)
                  my_groups acc
    ↔ x ∈ acc ∨ ∃ g, g ∈ my_groups ∧ x ∈ get_memberships g memberships 0.
Proof.
  induction my_groups as [|g my_groups IH]; intros acc x; simpl.
  - split; [auto|]. intros [?|(g & Hg & _)]; [done|]. by apply elem_of_nil in Hg.
  - rewrite IH, elem_of_app. split.
    + intros [[?|?]|(g' & Hg' & Hx)]; [auto| |].
      * right. exists g. split; [by left|done].
      * right. exists g'. split; [by right|done].
    + intros [?|(g' & Hg' & Hx)]; [auto|].
      apply elem_of_cons in Hg' as [->|Hg']; [auto|].
      right. eauto.
Qed.

Lemma closure_ids_elem my_groups x :
  x ∈ closure_ids my_groups memberships
  ↔ ∃ g, g ∈ my_groups ∧ x ∈ get_memberships g memberships 0.
Proof.
  unfold closure_ids. rewrite elem_of_app, memberships_fold. split.
  - intros [Hx|[Hx|?]]; [|by apply elem_of_nil in Hx|done].
    exists x. split; [done|apply expansion_self].
  - auto.
Qed.

End Expansion.

Lemma get_groups_elem my_groups subgroups group_rows name :
  name ∈ get_groups my_groups subgroups group_rows
  ↔ ∃ id raw, (id, raw) ∈ group_rows ∧ strip raw = name
              ∧ id ∈ closure_ids my_groups subgroups.
Proof.
  rewrite get_groups_filter, list_elem_of_fmap. split.
  - intros ([id raw] & -> & Hin). apply list_elem_of_filter in Hin as [Hid Hin].
    eauto.
  - intros (id & raw & Hin & <- & Hid). exists (id, raw). split; [done|].
    by apply list_elem_of_filter.
Qed.

(** X17.  Every name that [get_groups] returns is the trimmed name of a
    row of the group table whose id is one of the user's direct groups or
    is reached from one of them by going from subgroup to group along the
    edge rows: no group outside the closure is ever granted. *)
Theorem names_come_from_reachable_groups (my_groups : list Z)
    (subgroups : list (Z * Z)) (group_rows : list (Z * string))
    (name : string) :
  name ∈ get_groups my_groups subgroups group_rows →
  ∃ id raw g,
    (id, raw) ∈ group_rows ∧ strip raw = name
    ∧ g ∈ my_groups ∧ rtc (subgroup_of subgroups) g id.
Proof.
  intros (id & raw & Hrow & Hname & Hid)%get_groups_elem.
  apply closure_ids_elem in Hid as (g & Hg & Hid).
  exists id, raw, g. repeat split; try done.
  pose proof (expansion_sound subgroups 10 0 g eq_refl) as Hsound.
  rewrite Forall_forall in Hsound. by apply Hsound.
Qed.

Lemma names_come_from_reachable_groups_witness :
  ∃ id raw g,
    (id, raw) ∈ [(1, "administrators"); (2, " managers "); (3, "guests")]
    ∧ strip raw = "administrators"
    ∧ g ∈ [2] ∧ rtc (subgroup_of [(1, 2)]) g id.
Proof.
  apply (names_come_from_reachable_groups [2] [(1, 2)]
           [(1, "administrators"); (2, " managers "); (3, "guests")]
           "administrators").
  vm_compute. left.
Defined.

(** X18.  The names of the user's direct groups and of the groups these
    are subgroups of are always returned: a row of the group table whose id
    is a direct group, or the group of an edge row whose subgroup is a
    direct group, has its trimmed name in the result. *)
Theorem direct_groups_and_parents_are_returned (my_groups : list Z)
    (subgroups : list (Z * Z)) (group_rows : list (Z * string))
    (g id : Z) (raw : string) :
  g ∈ my_groups →
  id = g ∨ (id, g) ∈ subgroups →
  (id, raw) ∈ group_rows →
  strip raw ∈ get_groups my_groups subgroups group_rows.
Proof.
  intros Hg Hid Hrow. apply get_groups_elem. exists id, raw.
  split; [done|]. split; [done|].
  apply closure_ids_elem. exists g. split; [done|].
  destruct Hid as [->|Hedge].
  - apply expansion_self.
  - apply expansion_parent; [lia|done].
Qed.

Lemma direct_groups_and_parents_are_returned_witness :
  "administrators"
  ∈ get_groups [2] [(1, 2)] [(1, " administrators"); (2, "managers")].
Proof.
  apply (direct_groups_and_parents_are_returned [2] [(1, 2)]
           [(1, " administrators"); (2, "managers")] 2 1 " administrators").
  - by left.
  - right. by left.
  - by left.
Defined.

(** X19.  A user without direct groups gets no name, whatever the edge
    rows and the group table hold, and so does a user record without a
    store: its group and application views are empty and it is a member of
    nothing. *)
Theorem no_membership_no_groups (subgroups : list (Z * Z))
    (group_rows : list (Z * string)) :
  get_groups [] subgroups group_rows = []
  ∧ groups (Some (GroupQueries [] subgroups group_rows)) = []
  ∧ apps (Some (GroupQueries [] subgroups group_rows)) = []
  ∧ User_get_groups None = []
  ∧ (∀ group,
       is_member (Some (GroupQueries [] subgroups group_rows)) group = false
       ∧ is_member None group = false).
Proof.
  assert (get_groups [] subgroups group_rows = []) as Hempty.
  { destruct (get_groups [] subgroups group_rows) as [|name names] eqn:Hnames;
      [done|].
    assert (name ∈ get_groups [] subgroups group_rows) as Hin
      by (rewrite Hnames; by left).
    apply get_groups_elem in Hin as (id & raw & _ & _ & Hid).
    apply closure_ids_elem in Hid as (g & Hg & _). by apply elem_of_nil in Hg. }
  unfold groups, apps, is_member, groups, User_get_groups. simpl.
  rewrite Hempty. simpl. repeat split; try done.
Qed.

End Closure.

(** ** [User]: views of the groups, permission checks, authentication *)

Module Users.

Lemma prefix_cons a s1 b s2 :
  String.prefix (String a s1) (String b s2)
  = if ascii_dec a b then String.prefix s1 s2 else false.
Proof. reflexivity. Qed.

Lemma startswith_a_ g :
  startswith g "a_" = true → g = "a_" +:+ slice_from 2 g.
Proof.
  unfold startswith. destruct g as [|c1 g]; [done|]. rewrite prefix_cons.
  destruct (ascii_dec "a" c1) as [<-|]; [|done].
  destruct g as [|c2 g]; [done|]. rewrite prefix_cons.
  destruct (ascii_dec "_" c2) as [<-|]; done.
Qed.

Lemma startswith_a_prefixed a : startswith ("a_" +:+ a) "a_" = true.
Proof.
  unfold startswith.
  change ("a_" +:+ a) with (String "a" (String "_" a)).
  rewrite !prefix_cons.
  destruct (ascii_dec "a" "a"); [|done]. destruct (ascii_dec "_" "_"); [|done].
  by destruct a.
Qed.

Lemma filter_split {A} (p : A → bool) (l : list A) :
  (length (List.filter (fun x => negb (p x)) l) + length (List.filter p l)
   = length l)%nat.
Proof. induction l as [|x l IH]; simpl; [done|]. destruct (p x); simpl; lia. Qed.

(** X20.  The names that [get_groups] gives a user are split between two
    views: [groups] holds the names that do not start with [a_], and
    [apps] the others without that prefix.  So [is_member] holds exactly
    for the returned names without the prefix (never for an [a_] name),
    an application is in [apps] exactly when [a_] + its name was returned,
    and the two views together are as long as the list returned. *)
Theorem groups_and_apps_split_the_names (store : option group_queries) :
  (∀ group,
     is_member store group = true
     ↔ group ∈ User_get_groups store ∧ startswith group "a_" = false)
  ∧ (∀ app, app ∈ apps store ↔ ("a_" +:+ app) ∈ User_get_groups store)
  ∧ (length (groups store) + length (apps store)
     = length (User_get_groups store))%nat.
Proof.
  unfold is_member, groups, apps.
  generalize (User_get_groups store) as names. intros names.
  split; [|split].
  - intros group. rewrite bool_decide_eq_true, !list_elem_of_In, filter_In.
    by rewrite negb_true_iff.
  - intros app. rewrite !list_elem_of_In, in_map_iff. split.
    + intros (g & <- & [Hin Hpre]%filter_In).
      by rewrite <- startswith_a_.
    + intros Hin. exists ("a_" +:+ app). split; [done|].
      apply filter_In. split; [done|apply startswith_a_prefixed].
  - rewrite length_map. apply filter_split.
Qed.

(** X21.  [authorize] raises [UnauthorizedException] exactly when the
    object's [allows] refuses; whatever [can] accepts, [authorize] lets
    through.  When the object is a user record, the one action refused,
    whoever asks, is to delete the record whose username is [admin]. *)
Theorem permission_checks_agree (self : User) (action : string)
    (thing : thing_t) :
  (authorize self action thing = inl (UnauthorizedException "Unauthorized")
   ↔ thing_allows thing self action = false)
  ∧ (can self action thing = true → authorize self action thing = inr tt)
  ∧ (∀ truth target,
       authorize self action (user_thing truth target)
       = inl (UnauthorizedException "Unauthorized")
       ↔ action = "delete" ∧ username target = "admin").
Proof.
  split; [|split].
  - unfold authorize. destruct (thing_allows thing self action); simpl;
      split; done.
  - unfold can, authorize. destruct (thing_truthy thing); [|done].
    by intros ->.
  - intros truth target. unfold authorize, user_thing, allows. simpl.
    destruct (String.eqb_spec action "delete"),
      (String.eqb_spec (username target) "admin"); simpl; split;
      (done || by intros [? ?]).
Qed.

(** X22.  A user who has been deactivated is not authenticated, whatever
    the password and whatever [validate_password] answers; activation
    undoes it; and a user is authenticated only when active and when
    [validate_password] accepts the password against the stored one. *)
Theorem inactive_user_never_authenticates
    (validate_password : string → string → bool * string)
    (self : User) (pass : string) :
  authenticate validate_password (deactivate self) pass = None
  ∧ is_active (deactivate self) = false
  ∧ is_active (activate (deactivate self)) = true
  ∧ authenticate validate_password (activate self) pass
    = Some (validate_password pass (password self)).1
  ∧ (authenticate validate_password self pass = Some true →
     is_active self = true ∧ (validate_password pass (password self)).1 = true).
Proof.
  unfold authenticate, is_active, deactivate, activate. simpl.
  repeat split; try by destruct (validate_password _ _).
  all: destruct (String.eqb (status self) "A"); [|done];
    destruct (validate_password _ _); simpl; congruence.
Qed.

End Users.
